(** * A shallow embedding of relibc's [ld_so::linker] (src/src/ld_so/linker.rs)

    The loader is modelled on x86-64 Linux ([PATH_SEP = ':']), built in the
    release profile, so [usize]/[u64] arithmetic wraps modulo 2^64.  The
    kernel, the file system, the ELF parser (goblin) and IRELATIVE resolvers
    are the external collaborators of the code: they are Section variables.
    Every effect of [link] on the outside world (mappings, copies, stores,
    [mprotect] calls, resolver calls) is recorded in an event trace. *)

From Stdlib Require Import ZArith List String Ascii Bool Lia.
Import ListNotations.
Open Scope Z_scope.
Open Scope list_scope.

(** ** Machine integers *)

Definition W64 : Z := 2 ^ 64.
Definition wrap (z : Z) : Z := z mod W64.
Definition MAP_FAILED : Z := W64 - 1.   (* [!0] *)

Definition PAGE_SIZE : Z := 4096.
Definition PATH_SEP : ascii := ":"%char.

(** goblin / libc constants *)
Definition PT_LOAD : Z := 1.
Definition PT_TLS : Z := 7.
Definition PF_X : Z := 1.
Definition PF_W : Z := 2.
Definition PF_R : Z := 4.
Definition PROT_READ : Z := 1.
Definition PROT_WRITE : Z := 2.
Definition PROT_EXEC : Z := 4.
Definition STB_GLOBAL : Z := 1.
Definition R_X86_64_64 : Z := 1.
Definition R_X86_64_GLOB_DAT : Z := 6.
Definition R_X86_64_JUMP_SLOT : Z := 7.
Definition R_X86_64_RELATIVE : Z := 8.
Definition R_X86_64_TPOFF64 : Z := 18.
Definition R_X86_64_IRELATIVE : Z := 37.

(** ** Errors and results *)

Inductive error :=
| Malformed (msg : string)
| ParseError (msg : string)   (* an error of goblin's parser *)
| Exhausted.                  (* recursion fuel of the model ran out *)

Inductive result (A : Type) :=
| Ok (a : A)
| Err (e : error).
Arguments Ok {A} a.
Arguments Err {A} e.

Definition bytes := list Byte.byte.

(** ** The parsed ELF view (goblin) *)

Record ProgramHeader := {
  p_type : Z; p_flags : Z; p_offset : Z; p_vaddr : Z;
  p_filesz : Z; p_memsz : Z; p_align : Z }.

Record Sym := { st_name : nat; st_info : Z; st_value : Z }.
Definition st_bind (s : Sym) : Z := Z.shiftr (st_info s) 4.

Record Reloc := {
  r_offset : Z; r_addend : option Z; r_sym : nat; r_type : Z }.

Record Elf := {
  e_entry : Z;
  program_headers : list ProgramHeader;
  dynsyms : list Sym;
  (** [Strtab::get]: [None] out of range, [Some (Err _)] on a bad entry *)
  dynstrtab : nat -> option (result string);
  dynrelas : list Reloc;
  dynrels : list Reloc;
  pltrelocs : list Reloc;
  libraries : list string }.

(** [ProgramHeader::file_range] and slice [get] with a range *)
Definition file_range (ph : ProgramHeader) : Z * Z :=
  (p_offset ph, wrap (p_offset ph + p_filesz ph)).

Definition slice_get (data : bytes) (r : Z * Z) : option bytes :=
  let '(s, e) := r in
  if (s <=? e) && (e <=? Z.of_nat (List.length data))
  then Some (firstn (Z.to_nat (e - s)) (skipn (Z.to_nat s) data))
  else None.

Definition range_ok (len : Z) (r : Z * Z) : bool :=
  (fst r <=? snd r) && (snd r <=? len).

(** ** BTreeMap: an association list kept sorted by key *)

Module BTreeMap.
Section Map.
Context {V : Type}.

Definition t := list (string * V).

Fixpoint get (k : string) (m : t) : option V :=
  match m with
  | [] => None
  | (k', v) :: m' => if String.eqb k k' then Some v else get k m'
  end.

Definition contains_key (k : string) (m : t) : bool :=
  match get k m with Some _ => true | None => false end.

Fixpoint insert (k : string) (v : V) (m : t) : t :=
  match m with
  | [] => [(k, v)]
  | (k', v') :: m' =>
      match String.compare k k' with
      | Lt => (k, v) :: m
      | Eq => (k, v) :: m'
      | Gt => (k', v') :: insert k v m'
      end
  end.
End Map.
Arguments t V : clear implicits.
End BTreeMap.

(** ** Events and the writer/error monad *)

Inductive event :=
| EMap (obj : string) (addr size prot : Z)   (* mmap of an object's mapping *)
| EMapTls (addr size prot : Z)                (* mmap of TLS buffer + TCB *)
| ECopy (obj : string) (off : Z) (data : bytes)
| ECopyTls (obj : string) (start : Z) (data : bytes)
| EStore (addr value : Z)                     (* 64-bit store [set_u64] *)
| EProtect (addr len prot : Z)                (* mprotect *)
| ECall (addr : Z).                           (* IRELATIVE resolver call *)

Definition M (A : Type) : Type := list event * result A.

Definition ret {A} (a : A) : M A := ([], Ok a).
Definition fail {A} (e : error) : M A := ([], Err e).
Definition emit (e : event) : M unit := ([e], Ok tt).
Definition bind {A B} (m : M A) (f : A -> M B) : M B :=
  match m with
  | (w, Ok a) => let '(w', r) := f a in (w ++ w', r)
  | (w, Err e) => (w, Err e)
  end.
Definition lift {A} (r : result A) : M A :=
  match r with Ok a => ret a | Err e => fail e end.

Notation "x <- m ;; k" := (bind m (fun x => k))
  (at level 61, m at next level, right associativity).
Notation "m ;;; k" := (bind m (fun _ => k))
  (at level 61, right associativity).

Fixpoint mfold {A B} (f : B -> A -> M B) (l : list A) (b : B) : M B :=
  match l with
  | [] => ret b
  | x :: l' => bind (f b x) (mfold f l')
  end.

(** ** Strings of the loader *)

Fixpoint str_has (c : ascii) (s : string) : bool :=
  match s with
  | EmptyString => false
  | String c' s' => Ascii.eqb c c' || str_has c s'
  end.

(** [CString::new] fails exactly on an interior NUL byte. *)
Definition has_nul (s : string) : bool := str_has Ascii.zero s.

(** [str::split] on a character: [""] splits into [[""]]. *)
Fixpoint split (sep : ascii) (s : string) : list string :=
  match s with
  | EmptyString => [EmptyString]
  | String c s' =>
      let rest := split sep s' in
      if Ascii.eqb c sep then EmptyString :: rest
      else match rest with
           | h :: t => String c h :: t
           | [] => [String c EmptyString]
           end
  end.

(** the candidate path built by [load_library] for one search-path part *)
Definition search_path (part name : string) : string :=
  if String.eqb part EmptyString then ("./" ++ name)%string
  else (part ++ "/" ++ name)%string.

(** ** Object Store and Dependency Resolver ([Linker::load*]) *)

(** the result of [File::open] followed by [read_to_end] *)
Inductive io_result :=
| IoOk (data : bytes)
| OpenErr (msg : string)
| ReadErr (msg : string).

Definition store := BTreeMap.t bytes.

(** Mutation of [self.objects] survives an early [?] return, so every
    loader function returns the final store together with its result. *)
Definition LM := store -> store * result unit.

Fixpoint sfold {A} (f : A -> LM) (l : list A) : LM :=
  fun st =>
    match l with
    | [] => (st, Ok tt)
    | x :: l' =>
        let '(st', r) := f x st in
        match r with
        | Ok _ => sfold f l' st'
        | Err e => (st', Err e)
        end
    end.

Section Loader.
Variable elf_parse : bytes -> result Elf.
Variable read_to_end : string -> io_result.
(** [access(path, F_OK) == 0] *)
Variable file_access : string -> bool.
Variable library_path : string.

(** [Linker::load], given the [load_data] to call; the error texts keep
    the source's prefixes and omit the appended OS or CString error *)
Definition load_with (ld : string -> bytes -> LM) (name path : string) : LM :=
  fun st =>
    if has_nul path then
      (st, Err (Malformed ("invalid path '" ++ path ++ "'")))
    else
      match read_to_end path with
      | OpenErr m => (st, Err (Malformed ("failed to open '" ++ path ++ "': " ++ m)))
      | ReadErr m => (st, Err (Malformed ("failed to read '" ++ path ++ "': " ++ m)))
      | IoOk data => ld name data st
      end.

(** the loop over [library_path.split(PATH_SEP)] *)
Fixpoint search_with (ld : string -> bytes -> LM) (name : string)
    (parts : list string) : LM :=
  fun st =>
    match parts with
    | [] => (st, Err (Malformed ("failed to locate '" ++ name ++ "'")))
    | part :: rest =>
        let path := search_path part name in
        if has_nul path then
          (st, Err (Malformed ("invalid path '" ++ path ++ "'")))
        else if file_access path then load_with ld name path st
        else search_with ld name rest st
    end.

(** [Linker::load_library] *)
Definition load_library_with (ld : string -> bytes -> LM) (name : string) : LM :=
  if str_has "/" name then load_with ld name name
  else search_with ld name (split PATH_SEP library_path).

(** [Linker::load_data]; the source recurses without bound (see its TODO),
    so the model carries fuel and answers [Exhausted] when it runs out. *)
Fixpoint load_data (fuel : nat) (name : string) (data : bytes) : LM :=
  fun st =>
    match fuel with
    | O => (st, Err Exhausted)
    | S f =>
        match elf_parse data with
        | Err e => (st, Err e)
        | Ok elf =>
            let '(st', r) :=
              sfold (fun lib st0 =>
                       if BTreeMap.contains_key lib st0 then (st0, Ok tt)
                       else load_library_with (load_data f) lib st0)
                    (libraries elf) st in
            match r with
            | Ok _ => (BTreeMap.insert name data st', Ok tt)
            | Err e => (st', Err e)
            end
        end
    end.

Definition load (fuel : nat) : string -> string -> LM := load_with (load_data fuel).
Definition load_library (fuel : nat) : string -> LM :=
  load_library_with (load_data fuel).

End Loader.

(** ** The Linker Driver ([Linker::link]) *)

(** page-rounded geometry of a program header, as computed (three times)
    in [link]: [voff], [vaddr], [vsize].  The product cannot exceed the
    wrapped sum it is rounded from, so only the sum wraps. *)
Definition voff_of (ph : ProgramHeader) : Z := p_vaddr ph mod PAGE_SIZE.
Definition vaddr_of (ph : ProgramHeader) : Z := p_vaddr ph - voff_of ph.
Definition vsize_of (ph : ProgramHeader) : Z :=
  (wrap (p_memsz ph + voff_of ph + PAGE_SIZE - 1) / PAGE_SIZE) * PAGE_SIZE.

(** [valign] of a PT_TLS header (u64 arithmetic) *)
Definition valign_of (ph : ProgramHeader) : Z :=
  if p_align ph >? 0
  then (wrap (p_memsz ph + (p_align ph - 1)) / p_align ph) * p_align ph
  else p_memsz ph.

(** the Protection Finalizer's translation of [p_flags] *)
Definition prot_of (flags : Z) : Z :=
  let prot := if Z.land flags PF_R =? PF_R then Z.lor 0 PROT_READ else 0 in
  if Z.land flags PF_X =? PF_X then Z.lor prot PROT_EXEC
  else if Z.land flags PF_W =? PF_W then Z.lor prot PROT_WRITE
  else prot.

Definition all_rels (elf : Elf) : list Reloc :=
  dynrelas elf ++ dynrels elf ++ pltrelocs elf.

Definition get_or {V} (d : V) (o : option V) : V :=
  match o with Some v => v | None => d end.

(** State of the first loop of [link]: [tls_primary], [tls_size], [mmaps]
    (base and length of each mapping) and [globals]. *)
Record Plan := {
  tls_primary : Z;
  tls_size : Z;
  mmaps : BTreeMap.t (Z * Z);
  globals : BTreeMap.t Z }.

(** State of the copy loop: [tls_offset], [tls_index], [tls_ranges]. *)
Record TlsState := {
  tls_offset : Z;
  tls_index : Z;
  tls_ranges : BTreeMap.t (Z * (Z * Z)) }.

Section Link.
Variable elf_parse : bytes -> result Elf.
(** address returned by [mmap] for the mapping of object [name] of [size]
    bytes ([MAP_FAILED] on failure) *)
Variable mmap_object : string -> Z -> Z.
(** address returned by [mmap] in [allocate_tls] *)
Variable mmap_tls : Z -> Z.
(** return value of [mprotect(addr, len, prot)] *)
Variable mprotect : Z -> Z -> Z -> Z.
(** value returned by the IRELATIVE resolver at an address *)
Variable resolver : Z -> Z.

Variable objects : store.
Variable primary : string.

(** Re-parse every stored object *)
Definition parse_all : M (BTreeMap.t Elf) :=
  mfold (fun elfs '(name, data) =>
           elf <- lift (elf_parse data) ;;
           ret (BTreeMap.insert name elf elfs))
        objects [].

(** "Calculate virtual memory bounds": one program header *)
Definition bounds_step (elf_name : string)
    (acc : option (Z * Z) * Z * Z) (ph : ProgramHeader) : option (Z * Z) * Z * Z :=
  let '(bounds_opt, tp, ts) := acc in
  let vaddr := vaddr_of ph in
  let vsize := vsize_of ph in
  if p_type ph =? PT_LOAD then
    match bounds_opt with
    | Some (lo, hi) =>
        (Some (if vaddr <? lo then vaddr else lo,
               if wrap (vaddr + vsize) >? hi then wrap (vaddr + vsize) else hi),
         tp, ts)
    | None => (Some (vaddr, wrap (vaddr + vsize)), tp, ts)
    end
  else if p_type ph =? PT_TLS then
    (bounds_opt,
     if String.eqb elf_name primary then wrap (tp + vsize) else tp,
     wrap (ts + vsize))
  else (bounds_opt, tp, ts).

(** "Locate all globals" *)
Definition scan_globals (elf : Elf) (base : Z) (g : BTreeMap.t Z) : M (BTreeMap.t Z) :=
  mfold (fun g sym =>
           if (st_bind sym =? STB_GLOBAL) && negb (st_value sym =? 0) then
             match dynstrtab elf (st_name sym) with
             | Some (Ok name) => ret (BTreeMap.insert name (wrap (base + st_value sym)) g)
             | Some (Err e) => fail e
             | None => ret g
             end
           else ret g)
        (dynsyms elf) g.

(** one iteration of "Load all ELF files into memory and find all globals" *)
Definition plan_step (p : Plan) (ne : string * Elf) : M Plan :=
  let '(elf_name, elf) := ne in
  match BTreeMap.get elf_name objects with
  | None => ret p
  | Some _ =>
      let '(bounds_opt, tp, ts) :=
        fold_left (bounds_step elf_name) (program_headers elf)
                  (None, tls_primary p, tls_size p) in
      match bounds_opt with
      | None => ret {| tls_primary := tp; tls_size := ts;
                       mmaps := mmaps p; globals := globals p |}
      | Some (_, hi) =>
          let size := hi in
          let ptr := mmap_object elf_name size in
          if ptr =? MAP_FAILED then fail (Malformed ("failed to map " ++ elf_name))
          else
            emit (EMap elf_name ptr size (Z.lor PROT_READ PROT_WRITE)) ;;;
            g <- scan_globals elf ptr (globals p) ;;
            ret {| tls_primary := tp; tls_size := ts;
                   mmaps := BTreeMap.insert elf_name (ptr, size) (mmaps p);
                   globals := g |}
      end
  end.

Definition plan0 : Plan :=
  {| tls_primary := 0; tls_size := 0; mmaps := []; globals := [] |}.

Definition plan (elfs : BTreeMap.t Elf) : M Plan := mfold plan_step elfs plan0.

(** [allocate_tls] (Linux): returns [tls.len()] *)
Definition allocate_tls (size : Z) : M Z :=
  let ptr := mmap_tls (wrap (size + PAGE_SIZE)) in
  if ptr =? MAP_FAILED then fail (Malformed "failed to map tls")
  else
    emit (EMapTls ptr (wrap (size + PAGE_SIZE)) (Z.lor PROT_READ PROT_WRITE)) ;;;
    emit (EStore (ptr + size) (wrap (ptr + size))) ;;;
    ret size.

(** "Copy data": one program header of object [elf_name] *)
Definition copy_ph (elf_name : string) (object : bytes) (mlen : Z) (tls_len : Z)
    (s : TlsState) (ph : ProgramHeader) : M TlsState :=
  let vsize := vsize_of ph in
  if p_type ph =? PT_LOAD then
    match slice_get object (file_range ph) with
    | None => fail (Malformed "failed to read")
    | Some obj_data =>
        let range := (p_vaddr ph, wrap (p_vaddr ph + Z.of_nat (List.length obj_data))) in
        if range_ok mlen range then
          emit (ECopy elf_name (p_vaddr ph) obj_data) ;;; ret s
        else fail (Malformed "failed to write")
    end
  else if p_type ph =? PT_TLS then
    let valign := valign_of ph in
    match slice_get object (file_range ph) with
    | None => fail (Malformed "failed to read")
    | Some obj_data =>
        let '(index, start, off', idx') :=
          if String.eqb elf_name primary then
            (0, wrap (tls_len - valign), tls_offset s, tls_index s)
          else
            (tls_index s + 1, wrap (tls_len - wrap (tls_offset s + valign)),
             wrap (tls_offset s + vsize), tls_index s + 1) in
        let range := (start, wrap (start + Z.of_nat (List.length obj_data))) in
        if range_ok tls_len range then
          emit (ECopyTls elf_name start obj_data) ;;;
          ret {| tls_offset := off'; tls_index := idx';
                 tls_ranges := BTreeMap.insert elf_name (index, range) (tls_ranges s) |}
        else fail (Malformed "failed to write tls")
    end
  else ret s.

Definition copy_step (mm : BTreeMap.t (Z * Z)) (tls_len : Z)
    (s : TlsState) (ne : string * Elf) : M TlsState :=
  let '(elf_name, elf) := ne in
  match BTreeMap.get elf_name objects with
  | None => ret s
  | Some object =>
      match BTreeMap.get elf_name mm with
      | None => ret s
      | Some (_, mlen) =>
          mfold (copy_ph elf_name object mlen tls_len) (program_headers elf) s
      end
  end.

Definition copy (elfs : BTreeMap.t Elf) (mm : BTreeMap.t (Z * Z)) (tls_primary0 tls_len : Z)
    : M TlsState :=
  mfold (copy_step mm tls_len) elfs
        {| tls_offset := tls_primary0; tls_index := 0; tls_ranges := [] |}.

(** the symbol value [s] of a relocation *)
Definition reloc_sym (elf : Elf) (g : BTreeMap.t Z) (rel : Reloc) : M Z :=
  if (0 <? r_sym rel)%nat then
    match nth_error (dynsyms elf) (r_sym rel) with
    | None => fail (Malformed "missing symbol for relocation")
    | Some sym =>
        match dynstrtab elf (st_name sym) with
        | None => fail (Malformed "missing name for symbol")
        | Some (Err e) => fail e
        | Some (Ok name) => ret (get_or 0 (BTreeMap.get name g))
        end
    end
  else ret 0.

(** "Relocate" of the first pass: one relocation *)
Definition reloc_step (elf_name : string) (elf : Elf) (b : Z) (g : BTreeMap.t Z)
    (ranges : BTreeMap.t (Z * (Z * Z))) (rel : Reloc) : M unit :=
  let a := wrap (get_or 0 (r_addend rel)) in
  s <- reloc_sym elf g rel ;;
  let t := match BTreeMap.get elf_name ranges with
           | Some (_, (start, _)) => start
           | None => 0
           end in
  let ptr := b + r_offset rel in
  if r_type rel =? R_X86_64_64 then emit (EStore ptr (wrap (s + a)))
  else if (r_type rel =? R_X86_64_GLOB_DAT) || (r_type rel =? R_X86_64_JUMP_SLOT)
  then emit (EStore ptr s)
  else if r_type rel =? R_X86_64_RELATIVE then emit (EStore ptr (wrap (b + a)))
  else if r_type rel =? R_X86_64_TPOFF64 then emit (EStore ptr (wrap (wrap (s + a) - t)))
  else ret tt.   (* IRELATIVE: handled below; others: "unsupported" *)

Definition relocate (elf_name : string) (elf : Elf) (b : Z) (g : BTreeMap.t Z)
    (ranges : BTreeMap.t (Z * (Z * Z))) : M unit :=
  mfold (fun _ rel => reloc_step elf_name elf b g ranges rel) (all_rels elf) tt.

(** "Protect pages" *)
Definition protect (elf_name : string) (elf : Elf) (b : Z) : M unit :=
  mfold (fun _ ph =>
           if p_type ph =? PT_LOAD then
             let addr := b + vaddr_of ph in
             let prot := prot_of (p_flags ph) in
             let res := mprotect addr (vsize_of ph) prot in
             emit (EProtect addr (vsize_of ph) prot) ;;;
             if res <? 0 then fail (Malformed ("failed to mprotect " ++ elf_name))
             else ret tt
           else ret tt)
        (program_headers elf) tt.

(** "Perform relocations, and protect pages" *)
Definition pass1 (elfs : BTreeMap.t Elf) (p : Plan) (ranges : BTreeMap.t (Z * (Z * Z)))
    : M unit :=
  mfold (fun _ '(elf_name, elf) =>
           match BTreeMap.get elf_name (mmaps p) with
           | None => ret tt
           | Some (b, _) =>
               relocate elf_name elf b (globals p) ranges ;;; protect elf_name elf b
           end)
        elfs tt.

(** "Perform indirect relocations (necessary evil), gather entry point" *)
Definition irelative (elf : Elf) (b : Z) : M unit :=
  mfold (fun _ rel =>
           let a := wrap (get_or 0 (r_addend rel)) in
           if r_type rel =? R_X86_64_IRELATIVE then
             emit (ECall (wrap (b + a))) ;;;
             emit (EStore (b + r_offset rel) (resolver (wrap (b + a))))
           else ret tt)
        (all_rels elf) tt.

Definition pass2 (elfs : BTreeMap.t Elf) (p : Plan) : M (option Z) :=
  mfold (fun entry_opt '(elf_name, elf) =>
           match BTreeMap.get elf_name (mmaps p) with
           | None => ret entry_opt
           | Some (b, _) =>
               let entry_opt' :=
                 if String.eqb elf_name primary then Some (wrap (b + e_entry elf))
                 else entry_opt in
               irelative elf b ;;; protect elf_name elf b ;;; ret entry_opt'
           end)
        elfs None.

Definition link : M Z :=
  elfs <- parse_all ;;
  p <- plan elfs ;;
  tls_len <- allocate_tls (tls_size p) ;;
  s <- copy elfs (mmaps p) (tls_primary p) tls_len ;;
  pass1 elfs p (tls_ranges s) ;;;
  entry_opt <- pass2 elfs p ;;
  match entry_opt with
  | Some e => ret e
  | None => fail (Malformed ("missing entry for " ++ primary))
  end.

End Link.

(** ** Properties used by the claims below *)

(** the page-protection state of an address after a trace: the last mapping
    or successful [mprotect] covering it *)
Definition page_step (mprotect : Z -> Z -> Z -> Z) (a : Z) (cur : option Z) (e : event)
    : option Z :=
  match e with
  | EMap _ addr size prot | EMapTls addr size prot =>
      if (addr <=? a) && (a <? addr + size) then Some prot else cur
  | EProtect addr len prot =>
      if (addr <=? a) && (a <? addr + len) && (0 <=? mprotect addr len prot)
      then Some prot else cur
  | _ => cur
  end.

Definition prot_at (mprotect : Z -> Z -> Z -> Z) (tr : list event) (a : Z) : option Z :=
  fold_left (page_step mprotect a) tr None.

Definition writable (prot : Z) : bool := Z.land prot PROT_WRITE =? PROT_WRITE.
Definition executable (prot : Z) : bool := Z.land prot PROT_EXEC =? PROT_EXEC.

Definition wx_free (prot : Z) : Prop := writable prot && executable prot = false.

(** the events that set page permissions only ever set W^X-free ones *)
Definition prot_event_ok (e : event) : Prop :=
  match e with
  | EMap _ _ _ p | EMapTls _ _ p | EProtect _ _ p => wx_free p
  | _ => True
  end.

(** events other than an IRELATIVE resolver call *)
Definition no_call (e : event) : Prop :=
  match e with ECall _ => False | _ => True end.

(** The relocation table of the Relocation Engine as the specification
    states it (first pass): [S], [T] and the stored value per type. *)
Definition spec_S (elf : Elf) (g : BTreeMap.t Z) (rel : Reloc) : Z :=
  if (r_sym rel =? 0)%nat then 0
  else match nth_error (dynsyms elf) (r_sym rel) with
       | Some sym =>
           match dynstrtab elf (st_name sym) with
           | Some (Ok name) => get_or 0 (BTreeMap.get name g)
           | _ => 0
           end
       | None => 0
       end.

Definition spec_T (elf_name : string) (ranges : BTreeMap.t (Z * (Z * Z))) : Z :=
  match BTreeMap.get elf_name ranges with
  | Some (_, (start, _)) => start
  | None => 0
  end.

Definition spec_store (B S T : Z) (rel : Reloc) : list event :=
  let A := get_or 0 (r_addend rel) in
  let P := B + r_offset rel in
  if r_type rel =? R_X86_64_64 then [EStore P ((S + A) mod 2 ^ 64)]
  else if (r_type rel =? R_X86_64_GLOB_DAT) || (r_type rel =? R_X86_64_JUMP_SLOT)
  then [EStore P S]
  else if r_type rel =? R_X86_64_RELATIVE then [EStore P ((B + A) mod 2 ^ 64)]
  else if r_type rel =? R_X86_64_TPOFF64 then [EStore P ((S + A - T) mod 2 ^ 64)]
  else [].

(** The bounds of the Memory Layout Planner: the upper bound is the
    maximum of the (wrapped) ends [vaddr + vsize] of the PT_LOAD headers. *)
Definition load_end (ph : ProgramHeader) : Z := wrap (vaddr_of ph + vsize_of ph).

Definition hi_step (acc : option Z) (ph : ProgramHeader) : option Z :=
  if p_type ph =? PT_LOAD then
    Some (match acc with None => load_end ph | Some h => Z.max h (load_end ph) end)
  else acc.

Definition hi_of (elf : Elf) : option Z := fold_left hi_step (program_headers elf) None.

(** the sum of the page-rounded sizes of an object's PT_TLS headers *)
Definition tls_step (acc : Z) (ph : ProgramHeader) : Z :=
  if p_type ph =? PT_TLS then acc + vsize_of ph else acc.

Definition tls_vsum (elf : Elf) : Z := fold_left tls_step (program_headers elf) 0.

(** the (name, address) pairs an object contributes to the global table,
    in [dynsyms] order *)
Definition sym_defs (elf : Elf) (base : Z) : list (string * Z) :=
  flat_map (fun sym =>
              if (st_bind sym =? STB_GLOBAL) && negb (st_value sym =? 0) then
                match dynstrtab elf (st_name sym) with
                | Some (Ok n) => [(n, wrap (base + st_value sym))]
                | _ => []
                end
              else [])
           (dynsyms elf).

(** all definitions in scan order: the mapped objects in [elfs] order *)
Definition scan_defs (mmap_object : string -> Z -> Z) (objects : store)
    (elfs : BTreeMap.t Elf) : list (string * Z) :=
  flat_map (fun '(name, elf) =>
              match BTreeMap.get name objects, hi_of elf with
              | Some _, Some hi => sym_defs elf (mmap_object name hi)
              | _, _ => []
              end)
           elfs.

(** the value of the last definition of [n] in [l], starting from [acc] *)
Definition last_def (n : string) (acc : option Z) (l : list (string * Z)) : option Z :=
  fold_left (fun acc '(k, v) => if String.eqb n k then Some v else acc) l acc.

(** what every loader function guarantees of the store: it only ever adds
    keys, and on success it has an entry under the name it loaded *)
Definition grows (f : string -> LM) : Prop :=
  (forall n st st' r, f n st = (st', r) ->
     forall k, BTreeMap.contains_key k st = true -> BTreeMap.contains_key k st' = true) /\
  (forall n st st', f n st = (st', Ok tt) -> BTreeMap.contains_key n st' = true).

(** [f] leaves the bytes stored under every other name as they were *)
Definition keeps (f : string -> LM) : Prop :=
  forall n st st' r, f n st = (st', r) ->
  forall k v, BTreeMap.get k st = Some v -> k <> n -> BTreeMap.get k st' = Some v.

(** the dependency loop of [load_data] *)
Definition deps_loop (read_to_end : string -> io_result) (file_access : string -> bool)
    (library_path : string) (ld : string -> bytes -> LM) (libs : list string) : LM :=
  sfold (fun lib st0 =>
           if BTreeMap.contains_key lib st0 then (st0, Ok tt)
           else load_library_with read_to_end file_access library_path ld lib st0)
        libs.

Definition not_copying (name : string) (ev : event) : Prop :=
  match ev with
  | ECopy n _ _ | ECopyTls n _ _ => n <> name
  | _ => True
  end.

(** the [mprotect] call the Protection Finalizer makes for a PT_LOAD header
    of an object mapped at [b], and its return value *)
Definition prot_call (b : Z) (ph : ProgramHeader) : event :=
  EProtect (b + vaddr_of ph) (vsize_of ph) (prot_of (p_flags ph)).
Definition prot_res (mprotect : Z -> Z -> Z -> Z) (b : Z) (ph : ProgramHeader) : Z :=
  mprotect (b + vaddr_of ph) (vsize_of ph) (prot_of (p_flags ph)).

(** a copy event that stays inside its destination: an object's copy inside
    that object's mapping, a TLS image inside the TLS buffer of [tls_len] *)
Definition copy_in_bounds (mm : BTreeMap.t (Z * Z)) (tls_len : Z) (ev : event) : Prop :=
  match ev with
  | ECopy n off data =>
      0 <= off -> Z.of_nat (List.length data) < W64 ->
      exists b mlen, BTreeMap.get n mm = Some (b, mlen) /\
                     off + Z.of_nat (List.length data) <= mlen
  | ECopyTls n start data =>
      Z.of_nat (List.length data) < W64 ->
      0 <= start /\ start + Z.of_nat (List.length data) <= tls_len
  | _ => True
  end.

(** ** The C6 claim's geometry, in unbounded arithmetic *)

(** [vsize] and the end [vaddr + vsize] as the layout rule writes them,
    without the usize wrap-around of the source *)
Definition spec_vsize (ph : ProgramHeader) : Z :=
  ((p_memsz ph + voff_of ph + PAGE_SIZE - 1) / PAGE_SIZE) * PAGE_SIZE.
Definition spec_end (ph : ProgramHeader) : Z := vaddr_of ph + spec_vsize ph.

(** ** Sample objects and system behaviour *)

Module Samples.

Definition ph_load (vaddr memsz flags : Z) : ProgramHeader :=
  {| p_type := PT_LOAD; p_flags := flags; p_offset := 0; p_vaddr := vaddr;
     p_filesz := 0; p_memsz := memsz; p_align := PAGE_SIZE |}.
Definition ph_tls (memsz align filesz : Z) : ProgramHeader :=
  {| p_type := PT_TLS; p_flags := PF_R; p_offset := 0; p_vaddr := 0;
     p_filesz := filesz; p_memsz := memsz; p_align := align |}.

(** a GLOBAL ([st_info] = STB_GLOBAL << 4) symbol [foo] *)
Definition sym_foo (v : Z) : Sym := {| st_name := 1; st_info := 16; st_value := v |}.
Definition sym0 : Sym := {| st_name := 0; st_info := 0; st_value := 0 |}.
Definition strtab (n : nat) : option (result string) :=
  match n with 1%nat => Some (Ok "foo"%string) | _ => None end.

Definition mk_elf (phs : list ProgramHeader) (syms : list Sym) (rels : list Reloc)
    (libs : list string) : Elf :=
  {| e_entry := 64; program_headers := phs; dynsyms := syms; dynstrtab := strtab;
     dynrelas := rels; dynrels := []; pltrelocs := []; libraries := libs |}.

Definition app_tls : ProgramHeader := ph_tls 16 8192 16.

(** the primary: defines [foo] at 16, TLS aligned to 0x2000, one TPOFF64 *)
Definition app_elf : Elf :=
  mk_elf [ph_load 0 4096 (Z.lor PF_R PF_X); app_tls] [sym0; sym_foo 16]
    [{| r_offset := 256; r_addend := Some 0; r_sym := 1; r_type := R_X86_64_TPOFF64 |}] [].
(** a library also defining [foo], at 32 *)
Definition lib_elf : Elf :=
  mk_elf [ph_load 0 4096 (Z.lor PF_R PF_X); ph_tls 64 64 64] [sym0; sym_foo 32] [] [].
(** a primary with an IRELATIVE relocation whose resolver is at base + 128 *)
Definition irel_elf : Elf :=
  mk_elf [ph_load 0 4096 (Z.lor PF_R PF_X)] [sym0]
    [{| r_offset := 512; r_addend := Some 128; r_sym := 0; r_type := R_X86_64_IRELATIVE |}] [].
(** an object with a PT_TLS header and no PT_LOAD header *)
Definition orphan_elf : Elf := mk_elf [ph_tls 32 16 32] [sym0; sym_foo 48] [] [].
(** a PT_LOAD whose [p_memsz] makes the usize sum wrap *)
Definition big_ph : ProgramHeader := ph_load 4096 (W64 - 1) PF_R.
Definition big_elf : Elf := mk_elf [big_ph] [sym0] [] [].
(** the primary again, now depending on [libc.so] *)
Definition dep_elf : Elf :=
  mk_elf [ph_load 0 4096 (Z.lor PF_R PF_X)] [sym0] [] ["libc.so"%string].

(** an object whose relocation names symbol 1 of a one-entry [dynsyms] *)
Definition dangling_elf : Elf :=
  mk_elf [ph_load 0 4096 PF_R] [sym0]
    [{| r_offset := 0; r_addend := Some 0; r_sym := 1; r_type := R_X86_64_64 |}] [].

(** [Elf::parse]: the first byte selects the object *)
Definition parse (d : bytes) : result Elf :=
  match d with
  | Byte.x01 :: _ => Ok app_elf
  | Byte.x02 :: _ => Ok lib_elf
  | Byte.x03 :: _ => Ok irel_elf
  | Byte.x04 :: _ => Ok orphan_elf
  | Byte.x05 :: _ => Ok big_elf
  | Byte.x06 :: _ => Ok dep_elf
  | _ => Err (ParseError "bad magic")
  end.

Definition image (tag : Byte.byte) : bytes := tag :: repeat Byte.x00 100.

Definition objs : store := [("app"%string, image Byte.x01); ("libc.so"%string, image Byte.x02)].
Definition objs_irel : store := [("app"%string, image Byte.x03)].
Definition objs_orphan : store :=
  [("app"%string, image Byte.x01); ("tls.so"%string, image Byte.x04)].
Definition objs_big : store := [("big"%string, image Byte.x05)].

Definition elfs : BTreeMap.t Elf := [("app"%string, app_elf); ("libc.so"%string, lib_elf)].
Definition elfs_orphan : BTreeMap.t Elf :=
  [("app"%string, app_elf); ("tls.so"%string, orphan_elf)].
Definition elfs_big : BTreeMap.t Elf := [("big"%string, big_elf)].

(** [mmap] of an object: the primary at 0x400000, others at 0x800000000000 *)
Definition mmap_obj (n : string) (size : Z) : Z :=
  if String.eqb n "app" then 4194304 else 140737488355328.
Definition mmap_tls (size : Z) : Z := 65536.
Definition mprotect (addr len prot : Z) : Z := 0.
Definition resolver (addr : Z) : Z := 7.

(** a file system holding [/bin/app] and [lib2/libc.so] (and [lib/libc.so]) *)
Definition read_file (path : string) : io_result :=
  if String.eqb path "/bin/app" then IoOk (image Byte.x06)
  else if String.eqb path "lib/libc.so" then IoOk (image Byte.x02)
  else if String.eqb path "lib2/libc.so" then ReadErr "I/O error"
  else OpenErr "No such file or directory".
Definition exists_file (path : string) : bool :=
  String.eqb path "/bin/app" || String.eqb path "lib/libc.so" ||
  String.eqb path "lib2/libc.so".

(** a library name with a NUL byte *)
Definition nul_name : string := ("a" ++ String Ascii.zero EmptyString)%string.

(** the planner's run on [elfs] and on [elfs_orphan] *)
Definition plan_trace : list event :=
  [EMap "app" 4194304 4096 3; EMap "libc.so" 140737488355328 4096 3].
Definition plan_result : Plan :=
  {| tls_primary := 4096; tls_size := 8192;
     mmaps := [("app"%string, (4194304, 4096)); ("libc.so"%string, (140737488355328, 4096))];
     globals := [("foo"%string, 140737488355360)] |}.
Definition orphan_trace : list event := [EMap "app" 4194304 4096 3].
Definition orphan_plan : Plan :=
  {| tls_primary := 4096; tls_size := 8192;
     mmaps := [("app"%string, (4194304, 4096))];
     globals := [("foo"%string, 4194320)] |}.

(** the store after loading [/bin/app] and its dependency [libc.so] *)
Definition loaded : store :=
  [("app"%string, image Byte.x06); ("libc.so"%string, image Byte.x02)].

End Samples.

(** * Generic lemmas *)

Lemma string_compare_refl : forall s, String.compare s s = Eq.
Proof.
  induction s as [|c s IH]; simpl; [reflexivity|].
  unfold Ascii.compare. rewrite N.compare_refl. exact IH.
Qed.

Lemma get_insert : forall {V} k k' (v : V) m,
  BTreeMap.get k (BTreeMap.insert k' v m) =
  if String.eqb k k' then Some v else BTreeMap.get k m.
Proof.
  intros V k k' v m. induction m as [|[k'' v''] m IH]; simpl; [reflexivity|].
  destruct (String.compare k' k'') eqn:Hc; simpl.
  - apply String.compare_eq_iff in Hc. subst k''.
    destruct (String.eqb k k'); reflexivity.
  - reflexivity.
  - destruct (String.eqb k k'') eqn:E1; [|exact IH].
    apply String.eqb_eq in E1. subst k''.
    destruct (String.eqb k k') eqn:E2; [|reflexivity].
    apply String.eqb_eq in E2. subst k'.
    rewrite string_compare_refl in Hc. discriminate.
Qed.

Lemma contains_insert : forall {V} k k' (v : V) m,
  BTreeMap.contains_key k m = true -> BTreeMap.contains_key k (BTreeMap.insert k' v m) = true.
Proof.
  unfold BTreeMap.contains_key. intros. rewrite get_insert.
  destruct (String.eqb k k'); auto.
Qed.

(** ** The writer/error monad *)

Lemma bind_ok : forall {A B} w (a : A) (f : A -> M B),
  bind (w, Ok a) f = (w ++ fst (f a), snd (f a)).
Proof. intros. unfold bind. destruct (f a); reflexivity. Qed.

Lemma bind_ret : forall {A B} (a : A) (f : A -> M B), bind (ret a) f = f a.
Proof. intros. unfold bind, ret. destruct (f a); reflexivity. Qed.

Lemma bind_err : forall {A B} w e (f : A -> M B), bind (w, Err e) f = (w, Err e).
Proof. reflexivity. Qed.

Lemma bind_Ok_inv : forall {A B} (m : M A) (f : A -> M B) w b,
  bind m f = (w, Ok b) ->
  exists wm a wf, m = (wm, Ok a) /\ f a = (wf, Ok b) /\ w = wm ++ wf.
Proof.
  intros A B [wm [a|e]] f w b H; [|discriminate H].
  unfold bind in H. destruct (f a) as [wf [b'|e]] eqn:Ef; [|discriminate H].
  injection H as <- Hb. subst b'. exists wm, a, wf. repeat split; auto.
Qed.

Ltac bind_inv H :=
  let wm := fresh "w" in let a := fresh "x" in let wf := fresh "w" in
  let E1 := fresh "E" in let E2 := fresh "E" in let E3 := fresh "E" in
  apply bind_Ok_inv in H as [wm [a [wf [E1 [E2 E3]]]]].

(** every event of a computation satisfies [P] *)
Definition All (P : event -> Prop) {A} (m : M A) : Prop := Forall P (fst m).

Lemma All_ret : forall P {A} (a : A), All P (ret a).
Proof. constructor. Qed.
Lemma All_fail : forall P {A} e, All P (@fail A e).
Proof. constructor. Qed.
Lemma All_emit : forall (P : event -> Prop) e, P e -> All P (emit e).
Proof. repeat constructor; assumption. Qed.
Lemma All_lift : forall P {A} (r : result A), All P (lift r).
Proof. destruct r; constructor. Qed.
Lemma All_bind : forall P {A B} (m : M A) (f : A -> M B),
  All P m -> (forall a, All P (f a)) -> All P (bind m f).
Proof.
  unfold All. intros P A B [w [a|e]] f H1 H2; simpl in *.
  - specialize (H2 a). destruct (f a); simpl in *. apply Forall_app; auto.
  - exact H1.
Qed.
Lemma All_mfold : forall P {A B} (f : B -> A -> M B) l b,
  (forall b x, All P (f b x)) -> All P (mfold f l b).
Proof.
  intros P A B f l. induction l; intros b H; simpl.
  - apply All_ret.
  - apply All_bind; auto.
Qed.

Ltac all_m :=
  repeat (match goal with
  | |- All _ (bind _ _) => apply All_bind; [|intro]
  | |- All _ (mfold _ _ _) => apply All_mfold; intros
  | |- All _ (ret _) => apply All_ret
  | |- All _ (fail _) => apply All_fail
  | |- All _ (lift _) => apply All_lift
  | |- All _ (emit _) => apply All_emit
  | |- All _ (match ?x with _ => _ end) => destruct x
  | |- All _ (if ?b then _ else _) => destruct b
  | |- All _ _ => progress cbv zeta
  end).

(** * The Protection Finalizer *)

Lemma prot_of_cases : forall flags,
  (Z.land flags PF_X = PF_X /\ (prot_of flags = 4 \/ prot_of flags = 5)) \/
  (Z.land flags PF_X <> PF_X /\ Z.land flags PF_W = PF_W /\
     (prot_of flags = 2 \/ prot_of flags = 3)) \/
  (Z.land flags PF_X <> PF_X /\ Z.land flags PF_W <> PF_W /\
     (prot_of flags = 0 \/ prot_of flags = 1)).
Proof.
  intro flags. unfold prot_of.
  destruct (Z.land flags PF_X =? PF_X) eqn:EX;
  [apply Z.eqb_eq in EX | apply Z.eqb_neq in EX];
  (destruct (Z.land flags PF_W =? PF_W) eqn:EW;
   [apply Z.eqb_eq in EW | apply Z.eqb_neq in EW]);
  destruct (Z.land flags PF_R =? PF_R); simpl; tauto.
Qed.

Lemma prot_of_wx_free : forall flags, wx_free (prot_of flags).
Proof.
  intro flags. unfold wx_free.
  destruct (prot_of_cases flags) as [[_ [-> | ->]]|[[_ [_ [-> | ->]]]|[_ [_ [-> | ->]]]]];
  reflexivity.
Qed.

Ltac all_m' :=
  repeat (all_m; try (progress cbv beta)); simpl prot_event_ok;
  auto using prot_of_wx_free.

Lemma link_prot_events_ok : forall elf_parse mmap_object mmap_tls mprotect resolver
    objects primary,
  All prot_event_ok (link elf_parse mmap_object mmap_tls mprotect resolver objects primary).
Proof.
  intros. unfold link, parse_all, plan, plan_step, scan_globals, allocate_tls, copy,
    copy_step, copy_ph, pass1, pass2, relocate, reloc_step, reloc_sym, irelative, protect.
  all_m'; reflexivity.
Qed.

Lemma page_state_wx_free : forall mprotect a tr cur,
  Forall prot_event_ok tr ->
  (forall p, cur = Some p -> wx_free p) ->
  forall p, fold_left (page_step mprotect a) tr cur = Some p -> wx_free p.
Proof.
  intros mp a tr. induction tr as [|e tr IH]; intros cur Hall Hcur p Hp; simpl in Hp.
  - exact (Hcur p Hp).
  - inversion Hall as [|? ? He Htr]; subst.
    apply (IH _ Htr) in Hp; [exact Hp|].
    intros p' Hp'. destruct e; simpl in Hp', He;
      repeat match type of Hp' with
             | context [if ?b then _ else _] => destruct b
             end;
      try (injection Hp' as <-; exact He); exact (Hcur _ Hp').
Qed.

(** * Claims *)

(** C3. Protection Finalizer, W^X: for the flags of any PT_LOAD header the
    computed protection grants EXEC and withholds WRITE when PF_X is set,
    grants WRITE exactly when PF_X is absent and PF_W present, and hence is
    never both writable and executable; consequently in every run of [link]
    (successful or not) no address is ever writable and executable at once:
    mappings start READ|WRITE and every [mprotect] installs such a mask. *)
Theorem link_w_xor_x : forall flags,
  (Z.land flags PF_X = PF_X ->
     executable (prot_of flags) = true /\ writable (prot_of flags) = false) /\
  (writable (prot_of flags) = true <->
     Z.land flags PF_X <> PF_X /\ Z.land flags PF_W = PF_W) /\
  (forall elf_parse mmap_object mmap_tls mprotect resolver objects primary a prot,
     prot_at mprotect
       (fst (link elf_parse mmap_object mmap_tls mprotect resolver objects primary)) a
       = Some prot ->
     writable prot && executable prot = false).
Proof.
  intro flags. split; [|split].
  - intro HX. destruct (prot_of_cases flags) as [[_ [-> | ->]]|[[H _]|[H _]]];
      [split; reflexivity | split; reflexivity | contradiction | contradiction].
  - destruct (prot_of_cases flags)
      as [[HX [-> | ->]]|[[HX [HW [-> | ->]]]|[HX [HW [-> | ->]]]]];
      simpl; split; intro H; try reflexivity; try discriminate; tauto.
  - intros. eapply page_state_wx_free with (cur := None); [apply link_prot_events_ok | intros ? ?; discriminate | eassumption].
Qed.

(** * Phase ordering *)

Ltac all_nc :=
  repeat (all_m; try (progress cbv beta)); simpl; auto.

Lemma parse_all_no_call : forall elf_parse objects, All no_call (parse_all elf_parse objects).
Proof. intros. unfold parse_all. all_nc. Qed.

Lemma plan_no_call : forall mmap_object objects primary elfs,
  All no_call (plan mmap_object objects primary elfs).
Proof. intros. unfold plan, plan_step, scan_globals. all_nc. Qed.

Lemma allocate_tls_no_call : forall mmap_tls n, All no_call (allocate_tls mmap_tls n).
Proof. intros. unfold allocate_tls. all_nc. Qed.

Lemma copy_no_call : forall objects primary elfs mm tp len,
  All no_call (copy objects primary elfs mm tp len).
Proof. intros. unfold copy, copy_step, copy_ph. all_nc. Qed.

Lemma pass1_no_call : forall mprotect elfs p ranges, All no_call (pass1 mprotect elfs p ranges).
Proof.
  intros. unfold pass1, relocate, reloc_step, reloc_sym, protect. all_nc.
Qed.

Lemma no_call_nth : forall l i addr, Forall no_call l -> nth_error l i <> Some (ECall addr).
Proof.
  intros l i addr H E. apply nth_error_In in E.
  rewrite Forall_forall in H. exact (H _ E).
Qed.


Lemma bind_call : forall {A B} (m : M A) (f : A -> M B) i a,
  All no_call m -> nth_error (fst (bind m f)) i = Some (ECall a) ->
  exists x, m = (fst m, Ok x) /\ (List.length (fst m) <= i)%nat /\
            nth_error (fst (f x)) (i - List.length (fst m)) = Some (ECall a).
Proof.
  intros A B [w [x|e]] f i a Hm Hi; unfold All in Hm; cbn [fst] in *.
  - rewrite bind_ok in Hi. cbn [fst] in Hi. exists x. split; [reflexivity|].
    destruct (Nat.lt_ge_cases i (List.length w)) as [Hlt|Hge].
    + rewrite nth_error_app1 in Hi by exact Hlt. exfalso. exact (no_call_nth _ _ _ Hm Hi).
    + rewrite nth_error_app2 in Hi by exact Hge. split; assumption.
  - rewrite bind_err in Hi. exfalso. exact (no_call_nth _ _ _ Hm Hi).
Qed.

Lemma fst_bind_ok : forall {A B} w (x : A) (f : A -> M B),
  fst (bind (w, Ok x) f) = w ++ fst (f x).
Proof. intros. rewrite bind_ok. reflexivity. Qed.

Ltac phase E :=
  match type of E with
  | ?m = _ =>
      let t := fresh "t" in let r := fresh "r" in let F := fresh "F" in
      destruct m as [t r] eqn:F; cbn [fst] in *; injection E as ->
  end.

(** C7. IRELATIVE ordering: whenever [link] calls an IRELATIVE resolver
    (event number [i] of its trace is [ECall addr]), the loading, planning,
    TLS and copy phases have succeeded and the whole first pass -- the
    relocations and the first [protect] of every object -- has run to
    completion, and all of its events come before event [i]. *)
Theorem link_irelative_after_first_pass :
  forall elf_parse mmap_object mmap_tls mprotect resolver objects primary i addr,
  nth_error (fst (link elf_parse mmap_object mmap_tls mprotect resolver objects primary)) i
    = Some (ECall addr) ->
  exists elfs p tls_len s t0 t1 t2 t3 t4 post,
    parse_all elf_parse objects = (t0, Ok elfs) /\
    plan mmap_object objects primary elfs = (t1, Ok p) /\
    allocate_tls mmap_tls (tls_size p) = (t2, Ok tls_len) /\
    copy objects primary elfs (mmaps p) (tls_primary p) tls_len = (t3, Ok s) /\
    pass1 mprotect elfs p (tls_ranges s) = (t4, Ok tt) /\
    fst (link elf_parse mmap_object mmap_tls mprotect resolver objects primary)
      = t0 ++ t1 ++ t2 ++ t3 ++ t4 ++ post /\
    (List.length (t0 ++ t1 ++ t2 ++ t3 ++ t4) <= i)%nat.
Proof.
  intros * H. unfold link in H |- *.
  apply bind_call in H as [elfs [E0 [L0 H]]]; [|apply parse_all_no_call]; phase E0.
  apply bind_call in H as [p [E1 [L1 H]]]; [|apply plan_no_call]; phase E1.
  apply bind_call in H as [tls_len [E2 [L2 H]]]; [|apply allocate_tls_no_call]; phase E2.
  apply bind_call in H as [s [E3 [L3 H]]]; [|apply copy_no_call]; phase E3.
  apply bind_call in H as [[] [E4 [L4 H]]]; [|apply pass1_no_call]; phase E4.
  do 10 eexists.
  do 5 (split; [first [reflexivity | eassumption]|]). split.
  - repeat (rewrite ?F, ?F0, ?F1, ?F2, ?F3, fst_bind_ok; cbv beta).
    reflexivity.
  - rewrite !length_app. lia.
Qed.

(** * The Relocation Engine *)

Lemma mfold_unit_ok : forall {A} (f : A -> M unit) (g : A -> list event) l ws,
  (forall x w, f x = (w, Ok tt) -> w = g x) ->
  mfold (fun _ x => f x) l tt = (ws, Ok tt) -> ws = flat_map g l.
Proof.
  intros A f g l. induction l as [|x l IH]; intros ws Hf H; simpl in H.
  - injection H as <-. reflexivity.
  - destruct (f x) as [w [[]|e]] eqn:Ex.
    + rewrite bind_ok in H. injection H as <- H2.
      rewrite (Hf _ _ Ex). simpl. f_equal. apply IH; [exact Hf|].
      rewrite <- H2. apply surjective_pairing.
    + rewrite bind_err in H. discriminate.
Qed.

Lemma reloc_sym_ok : forall elf g rel w s,
  reloc_sym elf g rel = (w, Ok s) -> w = [] /\ s = spec_S elf g rel.
Proof.
  intros elf g rel w s H. unfold reloc_sym, spec_S in *.
  destruct (0 <? r_sym rel)%nat eqn:E0.
  - apply Nat.ltb_lt in E0. replace (r_sym rel =? 0)%nat with false
      by (symmetry; apply Nat.eqb_neq; lia).
    destruct (nth_error (dynsyms elf) (r_sym rel)) as [sym|]; [|discriminate H].
    destruct (dynstrtab elf (st_name sym)) as [[name|e]|]; try discriminate H.
    injection H as <- <-. split; reflexivity.
  - apply Nat.ltb_ge in E0. replace (r_sym rel =? 0)%nat with true
      by (symmetry; apply Nat.eqb_eq; lia).
    injection H as <- <-. split; reflexivity.
Qed.

Lemma reloc_step_store : forall elf_name elf b g ranges rel w,
  reloc_step elf_name elf b g ranges rel = (w, Ok tt) ->
  w = spec_store b (spec_S elf g rel) (spec_T elf_name ranges) rel.
Proof.
  intros elf_name elf b g ranges rel w H.
  unfold reloc_step in H.
  destruct (reloc_sym elf g rel) as [w0 [s|e]] eqn:Hs; [|discriminate H].
  apply reloc_sym_ok in Hs as [-> <-].
  rewrite bind_ok in H. cbn [fst snd app] in H.
  unfold spec_store, spec_T. change (2 ^ 64) with W64. unfold wrap in H.
  set (A := get_or 0 (r_addend rel)) in *.
  set (t := match BTreeMap.get elf_name ranges with
            | Some (_, (start, _)) => start | None => 0 end) in *.
  destruct (r_type rel =? R_X86_64_64);
    [injection H as <-; rewrite Zplus_mod_idemp_r; reflexivity|].
  destruct ((r_type rel =? R_X86_64_GLOB_DAT) || (r_type rel =? R_X86_64_JUMP_SLOT));
    [injection H as <-; reflexivity|].
  destruct (r_type rel =? R_X86_64_RELATIVE);
    [injection H as <-; rewrite Zplus_mod_idemp_r; reflexivity|].
  destruct (r_type rel =? R_X86_64_TPOFF64).
  - injection H as <-. rewrite Zminus_mod_idemp_l.
    replace (s + A mod W64 - t) with (s - t + A mod W64) by ring.
    rewrite Zplus_mod_idemp_r. do 3 f_equal. ring.
  - injection H as <-. reflexivity.
Qed.

(** C2. First relocation pass: when the pass over an object's relocations
    [dynrelas ++ dynrels ++ pltrelocs] completes, the 64-bit stores it
    performs are exactly, in order, one store per relocation of a supported
    type at [B + r_offset] with value [S + A] (R_X86_64_64), [S] (GLOB_DAT,
    JUMP_SLOT), [B + A] (RELATIVE) or [(S + A) - T] (TPOFF64), all modulo
    2^64, with [A] = [r_addend] or 0, [S] the global table's address of the
    symbol's name (0 for [r_sym = 0] or a name absent from the table) and
    [T] the object's recorded [tls_range.start] or 0. *)
Theorem relocate_first_pass_stores : forall elf_name elf B g ranges ws,
  relocate elf_name elf B g ranges = (ws, Ok tt) ->
  ws = flat_map (fun rel => spec_store B (spec_S elf g rel) (spec_T elf_name ranges) rel)
                (all_rels elf).
Proof.
  intros elf_name elf B g ranges ws H. unfold relocate in H.
  eapply mfold_unit_ok; [|exact H].
  intros rel w Hw. exact (reloc_step_store _ _ _ _ _ _ _ Hw).
Qed.

(** * The Memory Layout Planner and the Symbol Table *)

Lemma bounds_step_hi : forall primary name bo tp ts ph,
  option_map snd (fst (fst (bounds_step primary name (bo, tp, ts) ph)))
  = hi_step (option_map snd bo) ph.
Proof.
  intros. unfold bounds_step, hi_step. fold (load_end ph).
  destruct (p_type ph =? PT_LOAD).
  - destruct bo as [[lo hi]|]; simpl; [|reflexivity].
    f_equal. destruct (load_end ph >? hi) eqn:Eg.
    + apply Z.gtb_lt in Eg. rewrite Z.max_r; lia.
    + rewrite Z.gtb_ltb in Eg. apply Z.ltb_ge in Eg. rewrite Z.max_l; lia.
  - destruct (p_type ph =? PT_TLS); reflexivity.
Qed.

Lemma bounds_fold_hi : forall primary name phs bo tp ts,
  option_map snd (fst (fst (fold_left (bounds_step primary name) phs (bo, tp, ts))))
  = fold_left hi_step phs (option_map snd bo).
Proof.
  intros primary name phs. induction phs as [|ph phs IH]; intros bo tp ts;
    cbn [fold_left].
  - reflexivity.
  - pose proof (bounds_step_hi primary name bo tp ts ph) as Hs.
    destruct (bounds_step primary name (bo, tp, ts) ph) as [[bo' tp'] ts'].
    rewrite IH. simpl in Hs. rewrite Hs. reflexivity.
Qed.

Lemma scan_globals_defs : forall elf base g w g',
  scan_globals elf base g = (w, Ok g') ->
  w = [] /\ forall n, BTreeMap.get n g' = last_def n (BTreeMap.get n g) (sym_defs elf base).
Proof.
  intros elf base. unfold scan_globals, sym_defs.
  induction (dynsyms elf) as [|sym syms IH]; intros g w g' H; cbn [mfold flat_map] in H |- *.
  - injection H as <- <-. split; reflexivity.
  - destruct ((st_bind sym =? STB_GLOBAL) && negb (st_value sym =? 0)).
    + destruct (dynstrtab elf (st_name sym)) as [[n|e]|].
      * rewrite bind_ret in H. destruct (IH _ _ _ H) as [Hw Hg]. split; [exact Hw|].
        intro k. rewrite Hg, get_insert. unfold last_def. simpl.
        reflexivity.
      * discriminate H.
      * rewrite bind_ret in H. exact (IH _ _ _ H).
    + rewrite bind_ret in H. exact (IH _ _ _ H).
Qed.

Lemma last_def_app : forall n acc l1 l2,
  last_def n acc (l1 ++ l2) = last_def n (last_def n acc l1) l2.
Proof. intros. unfold last_def. apply fold_left_app. Qed.

(** the global-table contribution of one entry of [elfs] *)
Lemma plan_step_globals : forall mmap_object objects primary p name elf w p',
  plan_step mmap_object objects primary p (name, elf) = (w, Ok p') ->
  forall n, BTreeMap.get n (globals p') =
    last_def n (BTreeMap.get n (globals p))
      (match BTreeMap.get name objects, hi_of elf with
       | Some _, Some hi => sym_defs elf (mmap_object name hi)
       | _, _ => []
       end).
Proof.
  intros mmap_object objects primary p name elf w p' H n.
  unfold plan_step in H.
  destruct (BTreeMap.get name objects) as [obj|]; [|injection H as _ <-; reflexivity].
  pose proof (bounds_fold_hi primary name (program_headers elf) None (tls_primary p) (tls_size p))
    as Hhi. unfold hi_of.
  destruct (fold_left (bounds_step primary name) (program_headers elf)
              (None, tls_primary p, tls_size p)) as [[bo tp] ts].
  simpl in Hhi. rewrite <- Hhi.
  destruct bo as [[lo hi]|]; simpl; [|injection H as _ <-; reflexivity].
  destruct (mmap_object name hi =? MAP_FAILED); [discriminate H|].
  apply bind_Ok_inv in H as [? [? [? [_ [H _]]]]].
  apply bind_Ok_inv in H as [? [g [? [Hs [Hr _]]]]].
  apply scan_globals_defs in Hs as [_ Hg].
  injection Hr as _ <-. simpl. apply Hg.
Qed.

Lemma plan_fold_globals : forall mmap_object objects primary elfs p0 tr p,
  mfold (plan_step mmap_object objects primary) elfs p0 = (tr, Ok p) ->
  forall n, BTreeMap.get n (globals p) =
            last_def n (BTreeMap.get n (globals p0)) (scan_defs mmap_object objects elfs).
Proof.
  intros mmap_object objects primary elfs. unfold scan_defs.
  induction elfs as [|[name elf] elfs IH]; intros p0 tr p H n; simpl in H |- *.
  - injection H as _ <-. reflexivity.
  - apply bind_Ok_inv in H as [? [p1 [? [Hs [Hr _]]]]]. rewrite last_def_app.
    rewrite <- (plan_step_globals _ _ _ _ _ _ _ _ Hs n).
    exact (IH _ _ _ Hr n).
Qed.

(** C1 (as the code does it). Symbol precedence: after the scan of [link],
    the global table maps every name to the address [B + st_value]
    (wrapping) of the LAST qualifying definition (GLOBAL binding, nonzero
    [st_value], name found in the string table) in scan order -- the mapped
    objects (those with a PT_LOAD) in the order of [elfs], i.e. ascending
    name order, and each object's [dynsyms] in order.  A later object
    overrides an earlier one; the primary gets no precedence. *)
Theorem plan_globals_last_writer : forall mmap_object objects primary elfs tr p,
  plan mmap_object objects primary elfs = (tr, Ok p) ->
  forall n, BTreeMap.get n (globals p) = last_def n None (scan_defs mmap_object objects elfs).
Proof.
  intros mmap_object objects primary elfs tr p H n.
  exact (plan_fold_globals _ _ _ _ _ _ _ H n).
Qed.

(** * The Object Store and the Dependency Resolver *)

Lemma insert_insert : forall {V} k (v : V) m,
  BTreeMap.insert k v (BTreeMap.insert k v m) = BTreeMap.insert k v m.
Proof.
  intros V k v m. induction m as [|[k' v'] m IH]; simpl.
  - rewrite string_compare_refl. reflexivity.
  - destruct (String.compare k k') eqn:Hc; simpl; rewrite ?string_compare_refl, ?Hc, ?IH;
      reflexivity.
Qed.

Lemma get_insert_same : forall {V} k (v : V) m, BTreeMap.get k (BTreeMap.insert k v m) = Some v.
Proof. intros. rewrite get_insert, String.eqb_refl. reflexivity. Qed.

Section Grows.
Variable elf_parse : bytes -> result Elf.
Variable read_to_end : string -> io_result.
Variable file_access : string -> bool.
Variable library_path : string.

Lemma load_with_grows : forall ld,
  (forall d, grows (fun n => ld n d)) ->
  forall path, grows (fun n => load_with read_to_end ld n path).
Proof.
  intros ld Hld path. split.
  - intros n st st' r H k Hk. unfold load_with in H.
    destruct (has_nul path); [injection H as <- _; exact Hk|].
    destruct (read_to_end path) as [d|m|m]; try (injection H as <- _; exact Hk).
    exact (proj1 (Hld d) _ _ _ _ H k Hk).
  - intros n st st' H. unfold load_with in H.
    destruct (has_nul path); [discriminate H|].
    destruct (read_to_end path) as [d|m|m]; try discriminate H.
    exact (proj2 (Hld d) _ _ _ H).
Qed.

Lemma search_with_grows : forall ld,
  (forall d, grows (fun n => ld n d)) ->
  forall parts, grows (fun n => search_with read_to_end file_access ld n parts).
Proof.
  intros ld Hld parts. induction parts as [|part parts IH]; split; simpl.
  - intros n st st' r H k Hk. injection H as <- _. exact Hk.
  - intros n st st' H. discriminate H.
  - intros n st st' r H k Hk.
    destruct (has_nul (search_path part n)); [injection H as <- _; exact Hk|].
    destruct (file_access (search_path part n)).
    + exact (proj1 (load_with_grows ld Hld _) _ _ _ _ H k Hk).
    + exact (proj1 IH _ _ _ _ H k Hk).
  - intros n st st' H.
    destruct (has_nul (search_path part n)); [discriminate H|].
    destruct (file_access (search_path part n)).
    + exact (proj2 (load_with_grows ld Hld _) _ _ _ H).
    + exact (proj2 IH _ _ _ H).
Qed.

Lemma load_library_with_grows : forall ld,
  (forall d, grows (fun n => ld n d)) ->
  grows (load_library_with read_to_end file_access library_path ld).
Proof.
  intros ld Hld. unfold load_library_with. split.
  - intros n st st' r H. destruct (str_has "/" n).
    + exact (proj1 (load_with_grows ld Hld n) _ _ _ _ H).
    + exact (proj1 (search_with_grows ld Hld _) _ _ _ _ H).
  - intros n st st' H. destruct (str_has "/" n).
    + exact (proj2 (load_with_grows ld Hld n) _ _ _ H).
    + exact (proj2 (search_with_grows ld Hld _) _ _ _ H).
Qed.

Lemma deps_loop_grows : forall ld,
  (forall d, grows (fun n => ld n d)) ->
  forall libs st st' r, deps_loop read_to_end file_access library_path ld libs st = (st', r) ->
  (forall k, BTreeMap.contains_key k st = true -> BTreeMap.contains_key k st' = true) /\
  (r = Ok tt -> forall lib, In lib libs -> BTreeMap.contains_key lib st' = true).
Proof.
  intros ld Hld libs. unfold deps_loop.
  induction libs as [|lib libs IH]; intros st st' r H; simpl in H.
  - injection H as <- <-. split; [auto | intros _ lib []].
  - pose proof (load_library_with_grows ld Hld) as [G1 G2].
    destruct (BTreeMap.contains_key lib st) eqn:Ec.
    + destruct (IH _ _ _ H) as [P1 P2]. split; [exact P1|].
      intros Hr lib' [<-|Hin]; [apply P1; exact Ec | exact (P2 Hr lib' Hin)].
    + destruct (load_library_with read_to_end file_access library_path ld lib st)
        as [st1 [[]|e]] eqn:El.
      * destruct (IH _ _ _ H) as [P1 P2]. split.
        -- intros k Hk. apply P1. exact (G1 _ _ _ _ El k Hk).
        -- intros Hr lib' [<-|Hin]; [apply P1; exact (G2 _ _ _ El) | exact (P2 Hr lib' Hin)].
      * injection H as <- <-. split; [exact (G1 _ _ _ _ El) | discriminate].
Qed.

Lemma load_data_grows : forall fuel d,
  grows (fun n => load_data elf_parse read_to_end file_access library_path fuel n d).
Proof.
  induction fuel as [|f IH]; intro d; split; simpl.
  - intros n st st' r H k Hk. injection H as <- _. exact Hk.
  - intros n st st' H. discriminate H.
  - intros n st st' r H k Hk. destruct (elf_parse d) as [elf|e]; [|injection H as <- _; exact Hk].
    fold (deps_loop read_to_end file_access library_path (load_data elf_parse read_to_end file_access library_path f) (libraries elf)) in H.
    destruct (deps_loop _ _ _ _ (libraries elf) st) as [st1 r1] eqn:Ed.
    apply (deps_loop_grows _ IH) in Ed as [P1 _].
    destruct r1; injection H as <- _; [apply contains_insert|]; exact (P1 k Hk).
  - intros n st st' H. destruct (elf_parse d) as [elf|e]; [|discriminate H].
    fold (deps_loop read_to_end file_access library_path (load_data elf_parse read_to_end file_access library_path f) (libraries elf)) in H.
    destruct (deps_loop _ _ _ _ (libraries elf) st) as [st1 [[]|e]]; [|discriminate H].
    injection H as <-. unfold BTreeMap.contains_key. rewrite get_insert_same. reflexivity.
Qed.

End Grows.

Section Search.
Variable elf_parse : bytes -> result Elf.
Variable read_to_end : string -> io_result.
Variable file_access : string -> bool.
Variable library_path : string.

Lemma search_with_find : forall ld name parts st,
  Forall (fun part => has_nul (search_path part name) = false) parts ->
  search_with read_to_end file_access ld name parts st =
  match find (fun part => file_access (search_path part name)) parts with
  | Some part => load_with read_to_end ld name (search_path part name) st
  | None => (st, Err (Malformed ("failed to locate '" ++ name ++ "'")))
  end.
Proof.
  intros ld name parts st Hn. induction Hn as [|part parts Hp Hn IH]; simpl; [reflexivity|].
  rewrite Hp. destruct (file_access (search_path part name)); [reflexivity | exact IH].
Qed.

Lemma search_with_first_hit : forall ld name pre part rest st,
  Forall (fun q => has_nul (search_path q name) = false /\
                   file_access (search_path q name) = false) pre ->
  has_nul (search_path part name) = false ->
  file_access (search_path part name) = true ->
  search_with read_to_end file_access ld name (pre ++ part :: rest) st =
  load_with read_to_end ld name (search_path part name) st.
Proof.
  intros ld name pre part rest st Hpre Hn Ha.
  induction Hpre as [|q pre [Hq1 Hq2] Hpre IH]; simpl.
  - rewrite Hn, Ha. reflexivity.
  - rewrite Hq1, Hq2. exact IH.
Qed.

Lemma search_with_nul : forall ld name pre part rest st,
  Forall (fun q => has_nul (search_path q name) = false /\
                   file_access (search_path q name) = false) pre ->
  has_nul (search_path part name) = true ->
  search_with read_to_end file_access ld name (pre ++ part :: rest) st =
  (st, Err (Malformed ("invalid path '" ++ search_path part name ++ "'"))).
Proof.
  intros ld name pre part rest st Hpre Hn.
  induction Hpre as [|q pre [Hq1 Hq2] Hpre IH]; simpl.
  - rewrite Hn. reflexivity.
  - rewrite Hq1, Hq2. exact IH.
Qed.

Lemma deps_loop_all_present : forall ld libs st,
  (forall lib, In lib libs -> BTreeMap.contains_key lib st = true) ->
  deps_loop read_to_end file_access library_path ld libs st = (st, Ok tt).
Proof.
  intros ld libs st H. unfold deps_loop. induction libs as [|lib libs IH]; simpl; [reflexivity|].
  rewrite (H lib (or_introl eq_refl)). apply IH. intros l Hl. apply H. right. exact Hl.
Qed.

End Search.

(** C5 (amended). [load_data] stores the bytes under the name whether or not
    the name is present, replacing any earlier bytes (a plain
    [BTreeMap::insert]); on success the store maps the name to the new bytes.
    A second [load(name, path)] after a successful one (same file contents,
    so every dependency is already present) succeeds and leaves the Object
    Store exactly as the first call left it. *)
Theorem load_data_replaces_load_idempotent :
  forall elf_parse read_to_end file_access library_path,
  (forall fuel name data st st',
     load_data elf_parse read_to_end file_access library_path fuel name data st = (st', Ok tt) ->
     BTreeMap.get name st' = Some data) /\
  (forall fuel fuel' name path st st1,
     load elf_parse read_to_end file_access library_path fuel name path st = (st1, Ok tt) ->
     load elf_parse read_to_end file_access library_path (S fuel') name path st1 = (st1, Ok tt)).
Proof.
  intros elf_parse read_to_end file_access library_path. split.
  - intros fuel name data st st' H. destruct fuel as [|f]; simpl in H; [discriminate H|].
    destruct (elf_parse data) as [elf|e]; [|discriminate H].
    fold (deps_loop read_to_end file_access library_path
            (load_data elf_parse read_to_end file_access library_path f) (libraries elf)) in H.
    destruct (deps_loop _ _ _ _ (libraries elf) st) as [st1 [[]|e]]; [|discriminate H].
    injection H as <-. apply get_insert_same.
  - intros fuel fuel' name path st st1 H. unfold load, load_with in H |- *.
    destruct (has_nul path); [discriminate H|].
    destruct (read_to_end path) as [data|m|m]; try discriminate H.
    destruct fuel as [|f]; simpl in H; [discriminate H|].
    destruct (elf_parse data) as [elf|e] eqn:Hp; [|discriminate H].
    fold (deps_loop read_to_end file_access library_path
            (load_data elf_parse read_to_end file_access library_path f) (libraries elf)) in H.
    destruct (deps_loop _ _ _ _ (libraries elf) st) as [st2 r] eqn:Hd.
    destruct r as [[]|e]; [|discriminate H].
    injection H as <-.
    destruct (deps_loop_grows read_to_end file_access library_path _
                (load_data_grows elf_parse read_to_end file_access library_path f)
                _ _ _ _ Hd) as [_ Hin].
    simpl. rewrite Hp.
    fold (deps_loop read_to_end file_access library_path
            (load_data elf_parse read_to_end file_access library_path fuel') (libraries elf)).
    rewrite deps_loop_all_present.
    + rewrite insert_insert. reflexivity.
    + intros lib Hl. apply contains_insert. exact (Hin eq_refl lib Hl).
Qed.

(** C8 (amended). A name containing '/' is loaded from its own path.
    Otherwise, provided no path formed from the search path contains a NUL
    byte, [load_library] loads from the first part whose formed path
    ([p/name], or [./name] for an empty part) passes the existence test, and
    when no part passes it fails with [failed to locate 'name'] (the source's
    not-found error) leaving the Object Store unchanged. When the search
    reaches a part whose formed path contains a NUL byte (every earlier
    part's path being NUL-free and failing the existence test), it fails at
    once with an [invalid path] error, leaving the Object Store unchanged and
    trying no later part. *)
Theorem load_library_resolution :
  forall elf_parse read_to_end file_access library_path fuel name st,
  (str_has "/" name = true ->
     load_library elf_parse read_to_end file_access library_path fuel name st =
     load elf_parse read_to_end file_access library_path fuel name name st) /\
  (str_has "/" name = false ->
     Forall (fun part => has_nul (search_path part name) = false) (split PATH_SEP library_path) ->
     load_library elf_parse read_to_end file_access library_path fuel name st =
     match find (fun part => file_access (search_path part name)) (split PATH_SEP library_path) with
     | Some part => load elf_parse read_to_end file_access library_path fuel name
                      (search_path part name) st
     | None => (st, Err (Malformed ("failed to locate '" ++ name ++ "'")))
     end) /\
  (forall pre part rest,
     split PATH_SEP library_path = pre ++ part :: rest ->
     str_has "/" name = false ->
     Forall (fun q => has_nul (search_path q name) = false /\
                      file_access (search_path q name) = false) pre ->
     has_nul (search_path part name) = true ->
     load_library elf_parse read_to_end file_access library_path fuel name st =
     (st, Err (Malformed ("invalid path '" ++ search_path part name ++ "'")))).
Proof.
  intros elf_parse read_to_end file_access library_path fuel name st. split; [|split].
  - intros Hs. unfold load_library, load_library_with. rewrite Hs. reflexivity.
  - intros Hs Hn. unfold load_library, load_library_with. rewrite Hs.
    rewrite (search_with_find read_to_end file_access _ _ _ st Hn). reflexivity.
  - intros pre part rest Hsplit Hs Hpre Hn. unfold load_library, load_library_with.
    rewrite Hs, Hsplit. apply search_with_nul; assumption.
Qed.

(** C10. Once the existence test succeeds for a search-path part (all
    earlier parts having failed it), [load_library] returns exactly the
    result of loading that one path: any open, read or parse error of that
    load is the result, and the later parts are never tried. *)
Theorem load_library_first_hit_final :
  forall elf_parse read_to_end file_access library_path fuel name st pre part rest,
  split PATH_SEP library_path = pre ++ part :: rest ->
  str_has "/" name = false ->
  Forall (fun q => has_nul (search_path q name) = false /\
                   file_access (search_path q name) = false) pre ->
  has_nul (search_path part name) = false ->
  file_access (search_path part name) = true ->
  load_library elf_parse read_to_end file_access library_path fuel name st =
  load elf_parse read_to_end file_access library_path fuel name (search_path part name) st.
Proof.
  intros elf_parse read_to_end file_access library_path fuel name st pre part rest
    Hsplit Hs Hpre Hn Ha.
  unfold load_library, load_library_with. rewrite Hs, Hsplit.
  apply search_with_first_hit; assumption.
Qed.

(** * The Mapping Size *)

Lemma All_mfold_in : forall P {A B} (f : B -> A -> M B) l b,
  (forall b x, In x l -> All P (f b x)) -> All P (mfold f l b).
Proof.
  intros P A B f l. induction l as [|x l IH]; intros b H; simpl.
  - apply All_ret.
  - apply All_bind; [apply H; left; reflexivity|].
    intro a. apply IH. intros b' y Hy. apply H. right. exact Hy.
Qed.

Lemma scan_globals_All : forall P elf base g, All P (scan_globals elf base g).
Proof.
  intros P elf base g. unfold scan_globals. apply All_mfold. intros g' sym.
  destruct ((st_bind sym =? STB_GLOBAL) && negb (st_value sym =? 0));
    [destruct (dynstrtab elf (st_name sym)) as [[n|e]|]|]; all_m.
Qed.

Lemma hi_fold_bound : forall phs acc h,
  fold_left hi_step phs acc = Some h ->
  (forall a, acc = Some a -> a <= h) /\
  (forall ph, In ph phs -> p_type ph = PT_LOAD -> load_end ph <= h).
Proof.
  induction phs as [|ph phs IH]; intros acc h H; cbn [fold_left] in H.
  - subst acc. split; [intros a Ha; injection Ha as <-; lia | intros ph []].
  - destruct (IH _ _ H) as [H1 H2]. unfold hi_step in H1.
    destruct (p_type ph =? PT_LOAD) eqn:Et.
    + specialize (H1 _ eq_refl). split.
      * intros a ->. lia.
      * intros ph' [<-|Hin] Ht'; [destruct acc; lia | exact (H2 ph' Hin Ht')].
    + split; [exact H1|].
      intros ph' [<-|Hin] Ht; [rewrite Ht, Z.eqb_refl in Et; discriminate Et | exact (H2 ph' Hin Ht)].
Qed.

Lemma load_end_no_wrap : forall ph,
  0 <= p_vaddr ph -> 0 <= p_memsz ph -> p_vaddr ph + p_memsz ph + PAGE_SIZE <= W64 ->
  0 <= vaddr_of ph /\ load_end ph = vaddr_of ph + vsize_of ph.
Proof.
  intros ph Hv Hm Hs. unfold load_end, vsize_of, vaddr_of, voff_of, wrap in *.
  pose proof (Z.mod_pos_bound (p_vaddr ph) PAGE_SIZE ltac:(unfold PAGE_SIZE; lia)) as Hb.
  pose proof (Z.mod_le (p_vaddr ph) PAGE_SIZE Hv ltac:(unfold PAGE_SIZE; lia)) as Hle.
  set (o := p_vaddr ph mod PAGE_SIZE) in *.
  rewrite (Z.mod_small (p_memsz ph + o + PAGE_SIZE - 1) W64)
    by (unfold PAGE_SIZE in *; lia).
  set (x := p_memsz ph + o + PAGE_SIZE - 1).
  pose proof (Z.mul_div_le x PAGE_SIZE ltac:(unfold PAGE_SIZE; lia)) as Hd.
  assert (0 <= x / PAGE_SIZE * PAGE_SIZE).
  { apply Z.mul_nonneg_nonneg; [apply Z.div_pos|]; unfold x, PAGE_SIZE in *; lia. }
  rewrite Z.mul_comm in Hd.
  split; [lia|]. apply Z.mod_small. unfold x, PAGE_SIZE in *. lia.
Qed.

Lemma plan_step_maps : forall mmap_object objects primary elfs p n e,
  In (n, e) elfs ->
  All (fun ev => forall name ptr size prot, ev = EMap name ptr size prot ->
         exists elf, In (name, elf) elfs /\ hi_of elf = Some size)
      (plan_step mmap_object objects primary p (n, e)).
Proof.
  intros mmap_object objects primary elfs p n e Hin. unfold plan_step.
  destruct (BTreeMap.get n objects); [|apply All_ret].
  pose proof (bounds_fold_hi primary n (program_headers e) None (tls_primary p) (tls_size p))
    as Hh.
  destruct (fold_left (bounds_step primary n) (program_headers e)
              (None, tls_primary p, tls_size p)) as [[bo tp] ts].
  destruct bo as [[lo hi]|]; [|apply All_ret].
  destruct (mmap_object n hi =? MAP_FAILED); [apply All_fail|].
  apply All_bind; [|intros _; apply All_bind; [apply scan_globals_All | intro; apply All_ret]].
  apply All_emit. intros name ptr size prot Hev. injection Hev as <- _ <- _.
  exists e. split; [exact Hin | exact (eq_sym Hh)].
Qed.

Lemma plan_maps_from : forall mmap_object objects primary elfs tr r,
  plan mmap_object objects primary elfs = (tr, r) ->
  forall name ptr size prot, In (EMap name ptr size prot) tr ->
  exists elf, In (name, elf) elfs /\ hi_of elf = Some size.
Proof.
  intros mmap_object objects primary elfs tr r H name ptr size prot Hev.
  assert (Ha : All (fun ev => forall name ptr size prot, ev = EMap name ptr size prot ->
                      exists elf, In (name, elf) elfs /\ hi_of elf = Some size)
                   (plan mmap_object objects primary elfs)).
  { unfold plan. apply All_mfold_in. intros b [n e] Hin.
    apply plan_step_maps. exact Hin. }
  unfold All in Ha. rewrite H in Ha. simpl in Ha.
  rewrite Forall_forall in Ha.
  exact (Ha _ Hev name ptr size prot eq_refl).
Qed.

(** X13. Every mapping the planner allocates is for an object of [elfs]
    whose PT_LOAD headers give the bound [hi_of] = [Some size] (lo is not
    subtracted). Every PT_LOAD header of that object whose end does not
    overflow ([p_vaddr + p_memsz + PAGE <= 2^64]) has its page-rounded span
    [vaddr, vaddr + vsize) within [0, size). *)
Theorem plan_mapping_size : forall mmap_object objects primary elfs tr r,
  plan mmap_object objects primary elfs = (tr, r) ->
  forall name ptr size prot, In (EMap name ptr size prot) tr ->
  exists elf, In (name, elf) elfs /\ hi_of elf = Some size /\
    forall ph, In ph (program_headers elf) -> p_type ph = PT_LOAD ->
      0 <= p_vaddr ph -> 0 <= p_memsz ph -> p_vaddr ph + p_memsz ph + PAGE_SIZE <= W64 ->
      0 <= vaddr_of ph /\ vaddr_of ph + vsize_of ph <= size.
Proof.
  intros mmap_object objects primary elfs tr r H name ptr size prot Hev.
  destruct (plan_maps_from _ _ _ _ _ _ H name ptr size prot Hev) as [elf [Hin Hhi]].
  exists elf. split; [exact Hin|]. split; [exact Hhi|].
  intros ph Hph Ht Hv Hm Hs.
  destruct (load_end_no_wrap ph Hv Hm Hs) as [H0 He].
  split; [exact H0|]. rewrite <- He.
  exact (proj2 (hi_fold_bound _ _ _ Hhi) ph Hph Ht).
Qed.

(** * Objects without a PT_LOAD header *)

Lemma mfold_inv : forall {A B} (Q : B -> Prop) (f : B -> A -> M B) l b w b',
  mfold f l b = (w, Ok b') -> Q b ->
  (forall b0 x w0 b1, In x l -> f b0 x = (w0, Ok b1) -> Q b0 -> Q b1) -> Q b'.
Proof.
  intros A B Q f l. induction l as [|x l IH]; intros b w b' H Hq Hs; simpl in H.
  - injection H as _ <-. exact Hq.
  - apply bind_Ok_inv in H as [w1 [b1 [w2 [H1 [H2 _]]]]].
    apply (IH b1 w2 b' H2); [exact (Hs _ _ _ _ (or_introl eq_refl) H1 Hq)|].
    intros b0 y w0 c Hy. apply Hs. right. exact Hy.
Qed.

Lemma hi_fold_none : forall phs acc,
  (forall ph, In ph phs -> p_type ph <> PT_LOAD) -> fold_left hi_step phs acc = acc.
Proof.
  induction phs as [|ph phs IH]; intros acc H; simpl; [reflexivity|].
  unfold hi_step at 2. destruct (p_type ph =? PT_LOAD) eqn:Et.
  - apply Z.eqb_eq in Et. exfalso. exact (H ph (or_introl eq_refl) Et).
  - apply IH. intros ph' Hin. apply H. right. exact Hin.
Qed.

Lemma wrap_small : forall z, 0 <= z < W64 -> wrap z = z.
Proof. intros. unfold wrap. apply Z.mod_small. assumption. Qed.

Lemma wrap_add_wrap : forall a v x, wrap (wrap (a + v) + x) = wrap (a + v + x).
Proof. intros. unfold wrap. apply Z.add_mod_idemp_l. unfold W64. lia. Qed.

Lemma bounds_fold_orphan : forall primary n phs tp ts c,
  (forall ph, In ph phs -> p_type ph <> PT_LOAD) ->
  0 <= tp < W64 -> 0 <= ts < W64 ->
  fold_left (bounds_step primary n) phs (None, tp, ts) =
  (None,
   if String.eqb n primary then wrap (tp + (fold_left tls_step phs c - c)) else tp,
   wrap (ts + (fold_left tls_step phs c - c))).
Proof.
  intros primary n phs. induction phs as [|ph phs IH]; intros tp ts c H Htp Hts; simpl.
  - rewrite Z.sub_diag, !Z.add_0_r, !wrap_small by assumption.
    destruct (String.eqb n primary); reflexivity.
  - assert (Hl : p_type ph <> PT_LOAD) by (apply H; left; reflexivity).
    assert (H' : forall ph', In ph' phs -> p_type ph' <> PT_LOAD)
      by (intros ph' Hin; apply H; right; exact Hin).
    change (tls_step c ph) with (if p_type ph =? PT_TLS then c + vsize_of ph else c).
    rewrite (proj2 (Z.eqb_neq _ _) Hl).
    assert (Wb : forall z, 0 <= wrap z < W64)
      by (intro z; unfold wrap, W64; apply Z.mod_pos_bound; lia).
    destruct (p_type ph =? PT_TLS).
    + destruct (String.eqb n primary) eqn:Ep.
      * rewrite (IH _ _ (c + vsize_of ph) H' (Wb _) (Wb _)).
        assert (E : forall a, a + vsize_of ph + (fold_left tls_step phs (c + vsize_of ph) - (c + vsize_of ph))
                     = a + (fold_left tls_step phs (c + vsize_of ph) - c)) by (intro; lia).
        rewrite !wrap_add_wrap, !E. reflexivity.
      * rewrite (IH _ _ (c + vsize_of ph) H' Htp (Wb _)).
        assert (E : forall a, a + vsize_of ph + (fold_left tls_step phs (c + vsize_of ph) - (c + vsize_of ph))
                     = a + (fold_left tls_step phs (c + vsize_of ph) - c)) by (intro; lia).
        rewrite !wrap_add_wrap, !E. reflexivity.
    + exact (IH _ _ c H' Htp Hts).
Qed.

Lemma plan_mmaps_absent : forall mmap_object objects primary name elfs p0 tr p,
  (forall e, In (name, e) elfs -> forall ph, In ph (program_headers e) -> p_type ph <> PT_LOAD) ->
  mfold (plan_step mmap_object objects primary) elfs p0 = (tr, Ok p) ->
  BTreeMap.get name (mmaps p0) = None -> BTreeMap.get name (mmaps p) = None.
Proof.
  intros mmap_object objects primary name elfs p0 tr p Hno H Hq.
  apply (mfold_inv (fun p => BTreeMap.get name (mmaps p) = None) _ _ _ _ _ H Hq).
  intros b0 [n e] w0 b1 Hin Hs Hb. unfold plan_step in Hs.
  destruct (BTreeMap.get n objects); [|injection Hs as _ <-; exact Hb].
  pose proof (bounds_fold_hi primary n (program_headers e) None (tls_primary b0) (tls_size b0))
    as Hh.
  destruct (fold_left (bounds_step primary n) (program_headers e)
              (None, tls_primary b0, tls_size b0)) as [[bo tp] ts].
  destruct bo as [[lo hi]|]; [|injection Hs as _ <-; exact Hb].
  destruct (mmap_object n hi =? MAP_FAILED); [discriminate Hs|].
  apply bind_Ok_inv in Hs as [? [? [? [_ [Hs _]]]]]. cbv beta in Hs.
  apply bind_Ok_inv in Hs as [? [g [? [_ [Hs _]]]]].
  injection Hs as _ <-. cbn [mmaps]. rewrite get_insert.
  destruct (String.eqb name n) eqn:E; [|exact Hb].
  apply String.eqb_eq in E. subst n. simpl in Hh.
  rewrite hi_fold_none in Hh by exact (Hno e Hin). discriminate Hh.
Qed.

Lemma copy_skips_absent : forall objects primary elfs mm tp tls_len ctr r name,
  BTreeMap.get name mm = None ->
  copy objects primary elfs mm tp tls_len = (ctr, r) ->
  Forall (not_copying name) ctr /\
  (forall s, r = Ok s -> BTreeMap.get name (tls_ranges s) = None).
Proof.
  intros objects primary elfs mm tp tls_len ctr r name Hmm H. split.
  - assert (Ha : All (not_copying name) (copy objects primary elfs mm tp tls_len)).
    { unfold copy. apply All_mfold. intros s [n e]. unfold copy_step.
      destruct (BTreeMap.get n objects); [|apply All_ret].
      destruct (String.eqb n name) eqn:E.
      - apply String.eqb_eq in E. subst n. rewrite Hmm. apply All_ret.
      - apply String.eqb_neq in E.
        destruct (BTreeMap.get n mm) as [[base mlen]|]; [|apply All_ret].
        apply All_mfold. intros s' ph. unfold copy_ph. all_m; exact E. }
    unfold All in Ha. rewrite H in Ha. exact Ha.
  - intros s ->. unfold copy in H.
    apply (mfold_inv (fun s => BTreeMap.get name (tls_ranges s) = None) _ _ _ _ _ H
             eq_refl).
    intros b0 [n e] w0 b1 _ Hs Hb. unfold copy_step in Hs.
    destruct (BTreeMap.get n objects) as [object|]; [|injection Hs as _ <-; exact Hb].
    destruct (String.eqb n name) eqn:E.
    + apply String.eqb_eq in E. subst n. rewrite Hmm in Hs. injection Hs as _ <-. exact Hb.
    + destruct (BTreeMap.get n mm) as [[b mlen]|]; [|injection Hs as _ <-; exact Hb].
      apply (mfold_inv (fun s => BTreeMap.get name (tls_ranges s) = None) _ _ _ _ _ Hs Hb).
      intros s0 ph w1 s1 _ Hc H0. unfold copy_ph in Hc.
      destruct (p_type ph =? PT_LOAD).
      * destruct (slice_get object (file_range ph)); [|discriminate Hc].
        destruct (range_ok _ _); [|discriminate Hc].
        injection Hc as _ <-. exact H0.
      * destruct (p_type ph =? PT_TLS); [|injection Hc as _ <-; exact H0].
        destruct (slice_get object (file_range ph)); [|discriminate Hc].
        destruct (String.eqb n primary); cbv beta iota zeta in Hc;
          (destruct (range_ok _ _); [|discriminate Hc]);
          injection Hc as _ <-; cbn [tls_ranges]; rewrite get_insert, String.eqb_sym, E;
          exact H0.
Qed.

(** C9. An object of the store with PT_TLS but no PT_LOAD header: its
    planner step adds the page-rounded [vsize] of its PT_TLS headers to
    [tls_size] (and to [tls_primary] when it is the primary) and changes
    nothing else: no mapping, no global. Over a whole successful planning,
    no [mmap] is recorded for it, and the copy phase then emits no copy of
    its segments or TLS image and records no TLS range for it, so the TLS
    space it reserved is left as [allocate_tls] mapped it (zero-filled). *)
Theorem orphan_tls_object :
  forall mmap_object objects primary name elfs,
  BTreeMap.get name objects <> None ->
  (forall e, In (name, e) elfs -> forall ph, In ph (program_headers e) -> p_type ph <> PT_LOAD) ->
  (forall e p, In (name, e) elfs ->
     0 <= tls_primary p < W64 -> 0 <= tls_size p < W64 ->
     plan_step mmap_object objects primary p (name, e) =
     ([], Ok {| tls_primary := if String.eqb name primary
                               then wrap (tls_primary p + tls_vsum e) else tls_primary p;
                tls_size := wrap (tls_size p + tls_vsum e);
                mmaps := mmaps p; globals := globals p |})) /\
  (forall tr p, plan mmap_object objects primary elfs = (tr, Ok p) ->
     BTreeMap.get name (mmaps p) = None /\
     (forall ptr size prot, ~ In (EMap name ptr size prot) tr) /\
     forall tls_len ctr r,
       copy objects primary elfs (mmaps p) (tls_primary p) tls_len = (ctr, r) ->
       (forall off data, ~ In (ECopy name off data) ctr) /\
       (forall start data, ~ In (ECopyTls name start data) ctr) /\
       (forall s, r = Ok s -> BTreeMap.get name (tls_ranges s) = None)).
Proof.
  intros mmap_object objects primary name elfs Hobj Hno. split.
  - intros e p Hin Htp Hts. unfold plan_step.
    destruct (BTreeMap.get name objects); [|contradiction].
    rewrite (bounds_fold_orphan primary name (program_headers e) _ _ 0 (Hno e Hin) Htp Hts).
    rewrite Z.sub_0_r. reflexivity.
  - intros tr p H.
    assert (Hm : BTreeMap.get name (mmaps p) = None)
      by exact (plan_mmaps_absent _ _ _ _ _ _ _ _ Hno H eq_refl).
    split; [exact Hm|]. split.
    + intros ptr size prot Hev.
      destruct (plan_maps_from _ _ _ _ _ _ H name ptr size prot Hev) as [e [Hin Hhi]].
      unfold hi_of in Hhi. rewrite hi_fold_none in Hhi by exact (Hno e Hin).
      discriminate Hhi.
    + intros tls_len ctr r Hc.
      destruct (copy_skips_absent _ _ _ _ _ _ _ _ _ Hm Hc) as [Hf Hr].
      rewrite Forall_forall in Hf. split; [|split; [|exact Hr]].
      * intros off data Hin. exact (Hf _ Hin eq_refl).
      * intros start data Hin. exact (Hf _ Hin eq_refl).
Qed.

(** * Further properties of the linker *)

Lemma mfold_all_ok : forall {A B} (f : B -> A -> M B) l b w b',
  mfold f l b = (w, Ok b') ->
  forall x, In x l -> exists b0 w0 b1, f b0 x = (w0, Ok b1).
Proof.
  intros A B f l. induction l as [|y l IH]; intros b w b' H x Hx; [destruct Hx|].
  simpl in H. apply bind_Ok_inv in H as [w1 [b1 [w2 [H1 [H2 _]]]]].
  destruct Hx as [<-|Hx]; [exists b, w1, b1; exact H1 | exact (IH _ _ _ H2 x Hx)].
Qed.

(** ** Parsing every stored object *)

Section ParseAll.
Variable elf_parse : bytes -> result Elf.

Lemma parse_fold : forall (objs : store) acc w r,
  mfold (fun elfs '(name, data) =>
           elf <- lift (elf_parse data) ;;
           ret (BTreeMap.insert name elf elfs)) objs acc = (w, r) ->
  w = [] /\
  (forall e, r = Err e -> exists n d, In (n, d) objs /\ elf_parse d = Err e) /\
  (forall x, r = Ok x -> forall n d, In (n, d) objs -> exists elf, elf_parse d = Ok elf).
Proof.
  induction objs as [|[n d] objs IH]; intros acc w r H; simpl in H.
  - injection H as <- <-. split; [reflexivity|]. split; [discriminate|]. intros _ _ _ _ [].
  - destruct (elf_parse d) as [elf|e] eqn:Ep; simpl in H.
    + destruct (mfold _ objs (BTreeMap.insert n elf acc)) as [w' r'] eqn:Em.
      injection H as <- <-. destruct (IH _ _ _ Em) as [Hw [He Ho]].
      split; [exact Hw|]. split.
      * intros e' Hr. destruct (He e' Hr) as [n' [d' [Hin Hp]]].
        exists n', d'. split; [right; exact Hin | exact Hp].
      * intros x Hr n' d' [Hnd|Hin]; [injection Hnd as <- <-; exists elf; exact Ep|].
        exact (Ho x Hr n' d' Hin).
    + injection H as <- <-. split; [reflexivity|]. split; [|discriminate].
      intros e' He. injection He as <-. exists n, d. split; [left; reflexivity | exact Ep].
Qed.

End ParseAll.

(** X1. [link] re-parses every stored object before it maps anything:
    either every stored object parses, or [link] fails with the parse error
    of some stored object having made no system call at all (empty trace). *)
Theorem link_parse_gate :
  forall elf_parse mmap_object mmap_tls mprotect resolver objects primary,
  (forall n d, In (n, d) objects -> exists elf, elf_parse d = Ok elf) \/
  (exists n d e, In (n, d) objects /\ elf_parse d = Err e /\
     link elf_parse mmap_object mmap_tls mprotect resolver objects primary = ([], Err e)).
Proof.
  intros elf_parse mmap_object mmap_tls mprotect resolver objects primary.
  destruct (parse_all elf_parse objects) as [w r] eqn:Hp.
  pose proof (parse_fold elf_parse objects [] w r Hp) as [Hw [He Ho]]. subst w.
  destruct r as [elfs|e].
  - left. exact (Ho elfs eq_refl).
  - right. destruct (He e eq_refl) as [n [d [Hin Hd]]]. exists n, d, e.
    split; [exact Hin|]. split; [exact Hd|].
    unfold link. rewrite Hp. reflexivity.
Qed.

(** ** The mappings recorded by the planner *)

(** X2. Every mapping the planner records for a name is the result of a
    successful [mmap] (not [MAP_FAILED]) of size [hi_of] for an object of
    that name that is both in the parsed set and in the Object Store. *)
Theorem plan_mmaps_provenance : forall mmap_object objects primary elfs tr p,
  plan mmap_object objects primary elfs = (tr, Ok p) ->
  forall n b size, BTreeMap.get n (mmaps p) = Some (b, size) ->
  exists elf d, In (n, elf) elfs /\ BTreeMap.get n objects = Some d /\
    hi_of elf = Some size /\ b = mmap_object n size /\ b <> MAP_FAILED.
Proof.
  intros mmap_object objects primary elfs tr p H.
  unfold plan in H.
  apply (mfold_inv (fun p => forall n b size, BTreeMap.get n (mmaps p) = Some (b, size) ->
           exists elf d, In (n, elf) elfs /\ BTreeMap.get n objects = Some d /\
             hi_of elf = Some size /\ b = mmap_object n size /\ b <> MAP_FAILED)
           _ _ _ _ _ H).
  { intros n b size Hg. discriminate Hg. }
  intros b0 [n' e] w0 b1 Hin Hs Hb. unfold plan_step in Hs.
  destruct (BTreeMap.get n' objects) as [d|] eqn:Ho; [|injection Hs as _ <-; exact Hb].
  pose proof (bounds_fold_hi primary n' (program_headers e) None (tls_primary b0) (tls_size b0))
    as Hh.
  destruct (fold_left (bounds_step primary n') (program_headers e)
              (None, tls_primary b0, tls_size b0)) as [[bo tp] ts].
  destruct bo as [[lo hi]|]; [|injection Hs as _ <-; exact Hb].
  destruct (mmap_object n' hi =? MAP_FAILED) eqn:Ef; [discriminate Hs|].
  apply bind_Ok_inv in Hs as [? [? [? [_ [Hs _]]]]]. cbv beta in Hs.
  apply bind_Ok_inv in Hs as [? [g [? [_ [Hs _]]]]].
  injection Hs as _ <-. cbn [mmaps]. intros n b size Hg. rewrite get_insert in Hg.
  destruct (String.eqb n n') eqn:E; [|exact (Hb n b size Hg)].
  apply String.eqb_eq in E. subst n'. injection Hg as <- <-.
  exists e, d. split; [exact Hin|]. split; [exact Ho|]. split; [exact (eq_sym Hh)|].
  split; [reflexivity|]. apply Z.eqb_neq. exact Ef.
Qed.

(** ** Bounds of the copies *)

Lemma range_ok_sound : forall m off len,
  0 <= off -> 0 <= len < W64 -> range_ok m (off, wrap (off + len)) = true ->
  off + len <= m.
Proof.
  intros m off len Ho Hl H. unfold range_ok in H. simpl in H.
  apply andb_prop in H as [H1 H2]. apply Z.leb_le in H1, H2.
  unfold wrap in *.
  assert (Hq : 0 <= (off + len) / W64) by (apply Z.div_pos; unfold W64; lia).
  pose proof (Z.div_mod (off + len) W64 ltac:(unfold W64; lia)) as Hd.
  destruct (Z.eq_dec ((off + len) / W64) 0) as [E|E].
  - rewrite E in Hd. lia.
  - exfalso. assert (W64 <= W64 * ((off + len) / W64)) by nia. lia.
Qed.

Lemma wrap_range : forall z, 0 <= wrap z < W64.
Proof. intro z. unfold wrap, W64. apply Z.mod_pos_bound. lia. Qed.

(** X3. The copy phase never writes outside its destinations: each
    segment copy [ECopy] of an object lands inside that object's mapping
    ([p_vaddr .. p_vaddr + len] within its length), and each TLS image copy
    [ECopyTls] lands inside the TLS buffer [0 .. tls_len], in every run of
    the copy phase, successful or not. *)
Theorem copy_within_bounds : forall objects primary elfs mm tp tls_len,
  All (copy_in_bounds mm tls_len) (copy objects primary elfs mm tp tls_len).
Proof.
  intros objects primary elfs mm tp tls_len. unfold copy. apply All_mfold.
  intros s [n e]. unfold copy_step.
  destruct (BTreeMap.get n objects) as [object|]; [|apply All_ret].
  destruct (BTreeMap.get n mm) as [[b mlen]|] eqn:Hm; [|apply All_ret].
  apply All_mfold. intros s' ph. unfold copy_ph.
  destruct (p_type ph =? PT_LOAD).
  - destruct (slice_get object (file_range ph)) as [data|]; [|apply All_fail].
    destruct (range_ok mlen _) eqn:Hr; [|apply All_fail].
    apply All_bind; [|intros; apply All_ret].
    apply All_emit. simpl. intros H0 Hl. exists b, mlen. split; [exact Hm|].
    refine (range_ok_sound _ _ _ H0 _ Hr); lia.
  - destruct (p_type ph =? PT_TLS); [|apply All_ret].
    destruct (slice_get object (file_range ph)) as [data|]; [|apply All_fail].
    destruct (String.eqb n primary); cbv beta iota zeta;
      match goal with |- All _ (if range_ok ?a ?r then _ else _) =>
        destruct (range_ok a r) eqn:Hr end; try apply All_fail;
      (apply All_bind; [|intros; apply All_ret]);
      apply All_emit; simpl; intros Hl;
      (split; [apply wrap_range | refine (range_ok_sound _ _ _ (proj1 (wrap_range _)) _ Hr); lia]).
Qed.

(** ** Relocation errors *)

(** X4. The first relocation pass of an object fails (it never completes)
    when one of its relocations names a symbol ([r_sym > 0]) that is missing
    from [dynsyms], or whose name is missing from or malformed in
    [dynstrtab]. *)
Theorem relocate_missing_symbol_fails : forall elf_name elf b g ranges rel,
  In rel (all_rels elf) -> (0 < r_sym rel)%nat ->
  (nth_error (dynsyms elf) (r_sym rel) = None \/
   exists sym, nth_error (dynsyms elf) (r_sym rel) = Some sym /\
     (dynstrtab elf (st_name sym) = None \/ exists e, dynstrtab elf (st_name sym) = Some (Err e))) ->
  snd (relocate elf_name elf b g ranges) <> Ok tt.
Proof.
  intros elf_name elf b g ranges rel Hin Hs Hm Hr.
  destruct (relocate elf_name elf b g ranges) as [w r] eqn:H. simpl in Hr. subst r.
  unfold relocate in H.
  destruct (mfold_all_ok _ _ _ _ _ H rel Hin) as [_ [w0 [u Hstep]]].
  unfold reloc_step in Hstep. apply bind_Ok_inv in Hstep as [w1 [s [w2 [Hsym _]]]].
  unfold reloc_sym in Hsym. apply Nat.ltb_lt in Hs. rewrite Hs in Hsym.
  destruct Hm as [Hn|[sym [Hn [Hd|[e Hd]]]]]; rewrite Hn in Hsym;
    [|rewrite Hd in Hsym..]; discriminate Hsym.
Qed.

(** ** The Protection Finalizer *)

(** X5. For an object mapped at [b], the Protection Finalizer calls
    [mprotect] once per PT_LOAD header, in header order, with the header's
    page span and translated flags. If every call succeeds it returns [Ok];
    otherwise it stops at the first call returning a negative value and
    fails with [failed to mprotect <name>], making no further call. *)
Theorem protect_calls : forall mprotect elf_name elf b,
  let loads := filter (fun ph => p_type ph =? PT_LOAD) (program_headers elf) in
  ((forall ph, In ph loads -> 0 <= prot_res mprotect b ph) ->
     protect mprotect elf_name elf b = (map (prot_call b) loads, Ok tt)) /\
  (forall pre ph post, loads = pre ++ ph :: post ->
     (forall q, In q pre -> 0 <= prot_res mprotect b q) -> prot_res mprotect b ph < 0 ->
     protect mprotect elf_name elf b =
       (map (prot_call b) (pre ++ [ph]), Err (Malformed ("failed to mprotect " ++ elf_name)))).
Proof.
  intros mprotect elf_name elf b loads. unfold loads, protect.
  match goal with |- context [mfold ?F _ tt] => set (F0 := F) end.
  induction (program_headers elf) as [|q phs [IH1 IH2]]; split.
  - reflexivity.
  - intros pre ph post Hl. destruct pre; discriminate Hl.
  - intros Hok. cbn [mfold filter] in Hok |- *. destruct (p_type q =? PT_LOAD) eqn:Et.
    + assert (Hq : 0 <= prot_res mprotect b q) by (apply Hok; left; reflexivity).
      unfold prot_res in Hq. unfold F0 at 1. cbv beta zeta. rewrite Et.
      destruct (mprotect (b + vaddr_of q) (vsize_of q) (prot_of (p_flags q)) <? 0) eqn:Ec;
        [apply Z.ltb_lt in Ec; lia|].
      unfold emit. rewrite bind_ok. cbn [fst snd ret]. rewrite bind_ok. cbn [fst snd].
      rewrite IH1 by (intros ph Hin; apply Hok; right; exact Hin).
      reflexivity.
    + unfold F0 at 1. cbv beta. rewrite Et. rewrite bind_ret. exact (IH1 Hok).
  - intros pre ph post Hl Hpre Hneg. cbn [mfold filter] in Hl |- *.
    destruct (p_type q =? PT_LOAD) eqn:Et.
    + unfold F0 at 1. cbv beta zeta. rewrite Et. destruct pre as [|q' pre].
      * injection Hl as <- _. unfold prot_res in Hneg.
        apply Z.ltb_lt in Hneg. rewrite Hneg.
        unfold emit. rewrite bind_ok. cbn [fst snd fail]. reflexivity.
      * injection Hl as <- Hl.
        assert (Hq : 0 <= prot_res mprotect b q) by (apply Hpre; left; reflexivity).
        unfold prot_res in Hq.
        destruct (mprotect (b + vaddr_of q) (vsize_of q) (prot_of (p_flags q)) <? 0) eqn:Ec;
          [apply Z.ltb_lt in Ec; lia|].
        unfold emit. rewrite bind_ok. cbn [fst snd ret]. rewrite bind_ok. cbn [fst snd].
        rewrite (IH2 pre ph post Hl (fun q0 H0 => Hpre q0 (or_intror H0)) Hneg).
        reflexivity.
    + unfold F0 at 1. cbv beta. rewrite Et. rewrite bind_ret. exact (IH2 pre ph post Hl Hpre Hneg).
Qed.

(** ** The entry point *)

(** X6. When [link] succeeds, the primary object was parsed and mapped,
    and the returned entry point is its mapping base plus its [e_entry]
    (wrapping). In particular [link] fails whenever the primary is absent
    from the Object Store or has no PT_LOAD header. *)
Theorem link_entry_point :
  forall elf_parse mmap_object mmap_tls mprotect resolver objects primary tr entry,
  link elf_parse mmap_object mmap_tls mprotect resolver objects primary = (tr, Ok entry) ->
  exists w0 elfs w1 p elf b size,
    parse_all elf_parse objects = (w0, Ok elfs) /\
    plan mmap_object objects primary elfs = (w1, Ok p) /\
    In (primary, elf) elfs /\ BTreeMap.get primary (mmaps p) = Some (b, size) /\
    entry = wrap (b + e_entry elf).
Proof.
  intros elf_parse mmap_object mmap_tls mprotect resolver objects primary tr entry H.
  unfold link in H.
  apply bind_Ok_inv in H as [w0 [elfs [? [H0 [H _]]]]].
  apply bind_Ok_inv in H as [w1 [p [? [H1 [H _]]]]].
  apply bind_Ok_inv in H as [? [tls_len [? [_ [H _]]]]].
  apply bind_Ok_inv in H as [? [s [? [_ [H _]]]]].
  apply bind_Ok_inv in H as [? [u [? [_ [H _]]]]]. cbv beta in H.
  apply bind_Ok_inv in H as [w5 [eo [? [H5 [H _]]]]].
  destruct eo as [e|]; [|discriminate H]. injection H as _ <-.
  unfold pass2 in H5.
  pose proof (mfold_inv (fun eo => forall e, eo = Some e ->
                exists elf b size, In (primary, elf) elfs /\
                  BTreeMap.get primary (mmaps p) = Some (b, size) /\ e = wrap (b + e_entry elf))
                _ _ _ _ _ H5) as Hinv.
  destruct (Hinv ltac:(discriminate)) with (e := e) as [elf [b [size [Hin [Hg He]]]]];
    [|reflexivity|].
  - intros eo0 [n elf] w eo1 Hin Hs Hq.
    destruct (BTreeMap.get n (mmaps p)) as [[b size]|] eqn:Hm;
      [|injection Hs as _ <-; exact Hq].
    apply bind_Ok_inv in Hs as [? [? [? [_ [Hs _]]]]]. cbv beta in Hs.
    apply bind_Ok_inv in Hs as [? [? [? [_ [Hs _]]]]].
    injection Hs as _ <-.
    destruct (String.eqb n primary) eqn:E; [|exact Hq].
    apply String.eqb_eq in E. subst n. intros e' He'. injection He' as <-.
    exists elf, b, size. auto.
  - exists w0, elfs, w1, p, elf, b, size. auto.
Qed.

(** ** The loader *)

(** X7. The loader never removes an object from the Object Store: after
    [load], [load_library] or [load_data], every name present before is
    still present, whether the call succeeded or failed. *)
Theorem loader_keeps_objects :
  forall elf_parse read_to_end file_access library_path fuel st k,
  BTreeMap.contains_key k st = true ->
  (forall name path, BTreeMap.contains_key k
     (fst (load elf_parse read_to_end file_access library_path fuel name path st)) = true) /\
  (forall name, BTreeMap.contains_key k
     (fst (load_library elf_parse read_to_end file_access library_path fuel name st)) = true) /\
  (forall name data, BTreeMap.contains_key k
     (fst (load_data elf_parse read_to_end file_access library_path fuel name data st)) = true).
Proof.
  intros elf_parse read_to_end file_access library_path fuel st k Hk.
  pose proof (load_data_grows elf_parse read_to_end file_access library_path fuel) as G.
  split; [|split].
  - intros name path. unfold load.
    destruct (load_with read_to_end _ name path st) as [st' r] eqn:E.
    exact (proj1 (load_with_grows read_to_end _ G path) _ _ _ _ E k Hk).
  - intros name. unfold load_library.
    destruct (load_library_with read_to_end file_access library_path _ name st) as [st' r] eqn:E.
    exact (proj1 (load_library_with_grows read_to_end file_access library_path _ G) _ _ _ _ E k Hk).
  - intros name data.
    destruct (load_data elf_parse read_to_end file_access library_path fuel name data st)
      as [st' r] eqn:E.
    exact (proj1 (G data) _ _ _ _ E k Hk).
Qed.

(** X8. After [load_data] succeeds on an object, every library named in
    its dependency list ([DT_NEEDED]) is present in the Object Store. *)
Theorem load_data_dependencies_present :
  forall elf_parse read_to_end file_access library_path fuel name data st st' elf,
  load_data elf_parse read_to_end file_access library_path fuel name data st = (st', Ok tt) ->
  elf_parse data = Ok elf ->
  forall lib, In lib (libraries elf) -> BTreeMap.contains_key lib st' = true.
Proof.
  intros elf_parse read_to_end file_access library_path fuel name data st st' elf H Hp lib Hl.
  destruct fuel as [|f]; simpl in H; [discriminate H|]. rewrite Hp in H.
  fold (deps_loop read_to_end file_access library_path
          (load_data elf_parse read_to_end file_access library_path f) (libraries elf)) in H.
  destruct (deps_loop _ _ _ _ (libraries elf) st) as [st1 r] eqn:Hd.
  destruct r as [[]|e]; [|discriminate H]. injection H as <-.
  destruct (deps_loop_grows read_to_end file_access library_path _
              (load_data_grows elf_parse read_to_end file_access library_path f)
              _ _ _ _ Hd) as [_ Hin].
  apply contains_insert. exact (Hin eq_refl lib Hl).
Qed.

(** X10. When every dependency of the object is already in the Object
    Store, [load_data] loads no library and reads no file: it only stores
    the object's bytes under its name. *)
Theorem load_data_present_deps :
  forall elf_parse read_to_end file_access library_path f name data st elf,
  elf_parse data = Ok elf ->
  (forall lib, In lib (libraries elf) -> BTreeMap.contains_key lib st = true) ->
  load_data elf_parse read_to_end file_access library_path (S f) name data st
    = (BTreeMap.insert name data st, Ok tt).
Proof.
  intros elf_parse read_to_end file_access library_path f name data st elf Hp Hl.
  simpl. rewrite Hp.
  fold (deps_loop read_to_end file_access library_path
          (load_data elf_parse read_to_end file_access library_path f) (libraries elf)).
  rewrite (deps_loop_all_present read_to_end file_access library_path _ _ _ Hl).
  reflexivity.
Qed.

(** ** The TLS block *)

(** X11. On success [allocate_tls] maps [size + PAGE_SIZE] bytes read-write
    at the address [ptr] returned by [mmap] (not [MAP_FAILED]), returns
    [size], and writes one word, the TCB's self pointer: at exactly
    [ptr + size], just past the TLS area and inside the mapping, holding its
    own address [ptr + size]. *)
Theorem allocate_tls_tcb : forall mmap_tls size tr n,
  0 <= size -> size + PAGE_SIZE < W64 ->
  allocate_tls mmap_tls size = (tr, Ok n) ->
  n = size /\ exists ptr,
    ptr = mmap_tls (size + PAGE_SIZE) /\ ptr <> MAP_FAILED /\
    tr = [EMapTls ptr (size + PAGE_SIZE) (Z.lor PROT_READ PROT_WRITE);
          EStore (ptr + size) (wrap (ptr + size))] /\
    ptr <= ptr + size /\ (ptr + size) + 8 <= ptr + (size + PAGE_SIZE).
Proof.
  intros mmap_tls size tr n Hs Hw H. unfold allocate_tls in H.
  rewrite (wrap_small (size + PAGE_SIZE)) in H by (unfold PAGE_SIZE in *; lia).
  destruct (mmap_tls (size + PAGE_SIZE) =? MAP_FAILED) eqn:Ef; [discriminate H|].
  unfold emit in H. rewrite bind_ok in H. cbn [fst snd] in H. rewrite bind_ok in H.
  cbn [fst snd ret] in H. injection H as <- <-. split; [reflexivity|].
  exists (mmap_tls (size + PAGE_SIZE)).
  split; [reflexivity|]. split; [apply Z.eqb_neq; exact Ef|].
  split; [reflexivity|]. unfold PAGE_SIZE. lia.
Qed.

(** ** Successful copies *)

Lemma mfold_step_trace : forall {A B} (f : B -> A -> M B) l b w b',
  mfold f l b = (w, Ok b') ->
  forall x, In x l -> exists b0 w0 b1, f b0 x = (w0, Ok b1) /\ incl w0 w.
Proof.
  intros A B f l. induction l as [|y l IH]; intros b w b' H x Hx; [destruct Hx|].
  simpl in H. apply bind_Ok_inv in H as [w1 [b1 [w2 [H1 [H2 ->]]]]].
  destruct Hx as [<-|Hx].
  - exists b, w1, b1. split; [exact H1 | apply incl_appl, incl_refl].
  - destruct (IH _ _ _ H2 x Hx) as [b0 [w0 [b3 [Hs Hi]]]].
    exists b0, w0, b3. split; [exact Hs | apply incl_appr, Hi].
Qed.

(** X12. A successful copy phase skipped no segment: for every object of
    [elfs] that is in the Object Store and mapped, each PT_LOAD header's file
    bytes were read and copied ([ECopy]) to [p_vaddr] within the mapping's
    length, and each PT_TLS header's file bytes were copied ([ECopyTls]) to
    a start within the TLS buffer [0 .. tls_len]. A segment whose bytes
    cannot be read or whose range falls outside its destination makes the
    copy phase fail. *)
Theorem copy_segments_copied : forall objects primary elfs mm tp tls_len tr s,
  copy objects primary elfs mm tp tls_len = (tr, Ok s) ->
  forall n e object b mlen ph,
  In (n, e) elfs -> BTreeMap.get n objects = Some object ->
  BTreeMap.get n mm = Some (b, mlen) -> In ph (program_headers e) ->
  (p_type ph = PT_LOAD -> exists data,
     slice_get object (file_range ph) = Some data /\ In (ECopy n (p_vaddr ph) data) tr /\
     (0 <= p_vaddr ph -> Z.of_nat (List.length data) < W64 ->
      p_vaddr ph + Z.of_nat (List.length data) <= mlen)) /\
  (p_type ph = PT_TLS -> exists data start,
     slice_get object (file_range ph) = Some data /\ In (ECopyTls n start data) tr /\
     (Z.of_nat (List.length data) < W64 ->
      0 <= start /\ start + Z.of_nat (List.length data) <= tls_len)).
Proof.
  intros objects primary elfs mm tp tls_len tr s H n e object b mlen ph He Ho Hm Hph.
  unfold copy in H.
  destruct (mfold_step_trace _ _ _ _ _ H (n, e) He) as [s0 [w0 [s1 [Hs Hi]]]].
  unfold copy_step in Hs. rewrite Ho, Hm in Hs.
  destruct (mfold_step_trace _ _ _ _ _ Hs ph Hph) as [s2 [w1 [s3 [Hp Hi1]]]].
  unfold copy_ph in Hp. split.
  - intros Ht. rewrite Ht, Z.eqb_refl in Hp.
    destruct (slice_get object (file_range ph)) as [data|]; [|discriminate Hp].
    destruct (range_ok mlen _) eqn:Hr; [|discriminate Hp].
    unfold emit in Hp. rewrite bind_ok in Hp. injection Hp as Hw _.
    exists data. split; [reflexivity|]. split.
    + apply Hi, Hi1. rewrite <- Hw. left. reflexivity.
    + intros H0 Hl. refine (range_ok_sound _ _ _ H0 _ Hr). lia.
  - intros Ht. rewrite Ht in Hp.
    replace (PT_TLS =? PT_LOAD) with false in Hp by reflexivity. rewrite Z.eqb_refl in Hp.
    destruct (slice_get object (file_range ph)) as [data|]; [|discriminate Hp].
    destruct (String.eqb n primary); cbv beta iota zeta in Hp;
      match type of Hp with (if range_ok ?a ?r then _ else _) = _ =>
        destruct (range_ok a r) eqn:Hr end; try discriminate Hp;
      unfold emit in Hp; rewrite bind_ok in Hp; injection Hp as Hw _;
      (eexists data, _; split; [reflexivity|]; split;
       [apply Hi, Hi1; rewrite <- Hw; left; reflexivity|]);
      intros Hl; (split; [apply wrap_range|]);
      refine (range_ok_sound _ _ _ (proj1 (wrap_range _)) _ Hr); lia.
Qed.

(** ** Bytes already in the Object Store *)

Section Keeps.
Variable elf_parse : bytes -> result Elf.
Variable read_to_end : string -> io_result.
Variable file_access : string -> bool.
Variable library_path : string.

Lemma load_with_keeps : forall ld,
  (forall d, keeps (fun n => ld n d)) ->
  forall path, keeps (fun n => load_with read_to_end ld n path).
Proof.
  intros ld Hld path n st st' r H k v Hk Hn. unfold load_with in H.
  destruct (has_nul path); [injection H as <- _; exact Hk|].
  destruct (read_to_end path) as [d|m|m]; try (injection H as <- _; exact Hk).
  exact (Hld d _ _ _ _ H k v Hk Hn).
Qed.

Lemma search_with_keeps : forall ld,
  (forall d, keeps (fun n => ld n d)) ->
  forall parts, keeps (fun n => search_with read_to_end file_access ld n parts).
Proof.
  intros ld Hld parts. induction parts as [|part parts IH];
    intros n st st' r H k v Hk Hn; simpl in H.
  - injection H as <- _. exact Hk.
  - destruct (has_nul (search_path part n)); [injection H as <- _; exact Hk|].
    destruct (file_access (search_path part n)).
    + exact (load_with_keeps ld Hld _ _ _ _ _ H k v Hk Hn).
    + exact (IH _ _ _ _ H k v Hk Hn).
Qed.

Lemma load_library_with_keeps : forall ld,
  (forall d, keeps (fun n => ld n d)) ->
  keeps (load_library_with read_to_end file_access library_path ld).
Proof.
  intros ld Hld n st st' r H. unfold load_library_with in H. destruct (str_has "/" n).
  - exact (load_with_keeps ld Hld n _ _ _ _ H).
  - exact (search_with_keeps ld Hld _ _ _ _ _ H).
Qed.

Lemma deps_loop_keeps : forall ld,
  (forall d, keeps (fun n => ld n d)) ->
  forall libs st st' r, deps_loop read_to_end file_access library_path ld libs st = (st', r) ->
  forall k v, BTreeMap.get k st = Some v -> BTreeMap.get k st' = Some v.
Proof.
  intros ld Hld libs. unfold deps_loop.
  induction libs as [|lib libs IH]; intros st st' r H k v Hk; simpl in H.
  - injection H as <- _. exact Hk.
  - destruct (BTreeMap.contains_key lib st) eqn:Ec; [exact (IH _ _ _ H k v Hk)|].
    assert (Hn : k <> lib).
    { intros ->. unfold BTreeMap.contains_key in Ec. rewrite Hk in Ec. discriminate Ec. }
    destruct (load_library_with read_to_end file_access library_path ld lib st)
      as [st1 [[]|e]] eqn:El.
    + exact (IH _ _ _ H k v (load_library_with_keeps ld Hld _ _ _ _ El k v Hk Hn)).
    + injection H as <- _. exact (load_library_with_keeps ld Hld _ _ _ _ El k v Hk Hn).
Qed.

Lemma load_data_keeps : forall fuel d,
  keeps (fun n => load_data elf_parse read_to_end file_access library_path fuel n d).
Proof.
  induction fuel as [|f IH]; intros d n st st' r H k v Hk Hn; simpl in H.
  - injection H as <- _. exact Hk.
  - destruct (elf_parse d) as [elf|e]; [|injection H as <- _; exact Hk].
    fold (deps_loop read_to_end file_access library_path
            (load_data elf_parse read_to_end file_access library_path f) (libraries elf)) in H.
    destruct (deps_loop _ _ _ _ (libraries elf) st) as [st1 r1] eqn:Ed.
    pose proof (deps_loop_keeps _ IH _ _ _ _ Ed k v Hk) as P.
    destruct r1; injection H as <- _; [|exact P].
    rewrite get_insert. destruct (String.eqb k n) eqn:E; [|exact P].
    apply String.eqb_eq in E. contradiction.
Qed.

End Keeps.

(** X9. The loader never replaces the bytes of an object already in the
    Object Store, except under the name it was asked to load: after [load],
    [load_library] or [load_data] of [name], succeeding or failing, every
    other name present before still maps to the same bytes. In particular a
    dependency already present is never loaded again, whether or not the
    other dependencies are present. *)
Theorem loader_keeps_bytes :
  forall elf_parse read_to_end file_access library_path fuel st k v,
  BTreeMap.get k st = Some v ->
  (forall name path, k <> name -> BTreeMap.get k
     (fst (load elf_parse read_to_end file_access library_path fuel name path st)) = Some v) /\
  (forall name, k <> name -> BTreeMap.get k
     (fst (load_library elf_parse read_to_end file_access library_path fuel name st)) = Some v) /\
  (forall name data, k <> name -> BTreeMap.get k
     (fst (load_data elf_parse read_to_end file_access library_path fuel name data st)) = Some v).
Proof.
  intros elf_parse read_to_end file_access library_path fuel st k v Hk.
  pose proof (load_data_keeps elf_parse read_to_end file_access library_path fuel) as G.
  split; [|split].
  - intros name path Hn. unfold load.
    destruct (load_with read_to_end _ name path st) as [st' r] eqn:E.
    exact (load_with_keeps read_to_end _ G path _ _ _ _ E k v Hk Hn).
  - intros name Hn. unfold load_library.
    destruct (load_library_with read_to_end file_access library_path _ name st) as [st' r] eqn:E.
    exact (load_library_with_keeps read_to_end file_access library_path _ G _ _ _ _ E k v Hk Hn).
  - intros name data Hn.
    destruct (load_data elf_parse read_to_end file_access library_path fuel name data st)
      as [st' r] eqn:E.
    exact (G data _ _ _ _ E k v Hk Hn).
Qed.

(** * Sample runs *)

Import Samples.

(** C4. With a primary whose PT_TLS has [p_align] 0x2000 (above the page
    size), [valign] (0x2000) exceeds the [vsize] (0x1000) reserved for it:
    the primary's slot starts at [T.len - valign] = 0 and the library's
    slot at [T.len - (tls_offset + valign)] = 0xfc0, above the primary's
    start and inside the primary's aligned block [0, 0x2000). *)
Theorem tls_slots_overlap :
  plan mmap_obj objs "app"%string elfs = (plan_trace, Ok plan_result) /\
  valign_of app_tls = 8192 /\ vsize_of app_tls = 4096 /\
  tls_primary plan_result = 4096 /\ tls_size plan_result = 8192 /\
  match copy objs "app"%string elfs (mmaps plan_result) (tls_primary plan_result)
             (tls_size plan_result) with
  | (_, Ok s) =>
      BTreeMap.get "app"%string (tls_ranges s) = Some (0, (0, 16)) /\
      BTreeMap.get "libc.so"%string (tls_ranges s) = Some (1, (4032, 4096)) /\
      0 < 4032 < 0 + valign_of app_tls
  | _ => False
  end.
Proof. vm_compute. repeat split; reflexivity. Qed.

Lemma plan_globals_last_writer_witness :
  plan mmap_obj objs "app"%string elfs = (plan_trace, Ok plan_result) /\
  BTreeMap.get "foo"%string (globals plan_result) = last_def "foo"%string None (scan_defs mmap_obj objs elfs).
Proof.
  assert (H : plan mmap_obj objs "app"%string elfs = (plan_trace, Ok plan_result))
    by (vm_compute; reflexivity).
  split; [exact H | exact (plan_globals_last_writer _ _ _ _ _ _ H "foo"%string)].
Defined.

(** C1 fails: the primary [app] defines [foo] at 16 and [libc.so] at 32;
    the scan visits [libc.so] after [app] and overwrites the entry. *)
Lemma plan_primary_overridden :
  plan mmap_obj objs "app"%string elfs = (plan_trace, Ok plan_result) /\
  In ("app"%string, app_elf) elfs /\ nth_error (dynsyms app_elf) 1 = Some (sym_foo 16) /\
  BTreeMap.get "foo"%string (globals plan_result) = Some (140737488355328 + 32) /\
  140737488355328 + 32 <> 4194304 + 16.
Proof. vm_compute. repeat split; auto; discriminate. Qed.

Lemma relocate_first_pass_stores_witness :
  relocate "app"%string app_elf 4194304 [("foo"%string, 140737488355360)]
    [("app"%string, (0, (0, 16)))] = ([EStore 4194560 140737488355360], Ok tt) /\
  [EStore 4194560 140737488355360] =
  flat_map (fun rel => spec_store 4194304 (spec_S app_elf [("foo"%string, 140737488355360)] rel)
                         (spec_T "app"%string [("app"%string, (0, (0, 16)))]) rel)
           (all_rels app_elf).
Proof.
  assert (H : relocate "app"%string app_elf 4194304 [("foo"%string, 140737488355360)]
                [("app"%string, (0, (0, 16)))] = ([EStore 4194560 140737488355360], Ok tt))
    by (vm_compute; reflexivity).
  split; [exact H | exact (relocate_first_pass_stores _ _ _ _ _ _ H)].
Defined.

Lemma link_w_xor_x_witness :
  Z.land 7 PF_X = PF_X /\
  executable (prot_of 7) = true /\ writable (prot_of 7) = false /\
  prot_at mprotect (fst (link parse mmap_obj mmap_tls mprotect resolver objs "app"%string)) 4194304
    = Some 5 /\
  writable 5 && executable 5 = false.
Proof.
  assert (H1 : Z.land 7 PF_X = PF_X) by reflexivity.
  assert (H2 : prot_at mprotect (fst (link parse mmap_obj mmap_tls mprotect resolver objs "app"%string))
                 4194304 = Some 5) by (vm_compute; reflexivity).
  split; [exact H1|]. split; [exact (proj1 (proj1 (link_w_xor_x 7) H1))|].
  split; [exact (proj2 (proj1 (link_w_xor_x 7) H1))|].
  split; [exact H2|].
  exact (proj2 (proj2 (link_w_xor_x 7)) parse mmap_obj mmap_tls mprotect resolver objs "app"%string
           4194304 5 H2).
Defined.

Lemma load_data_replaces_load_idempotent_witness :
  load_data parse read_file exists_file "lib"%string 3 "app"%string (image Byte.x06) [] = (loaded, Ok tt) /\
  BTreeMap.get "app"%string loaded = Some (image Byte.x06) /\
  load parse read_file exists_file "lib"%string 3 "app"%string "/bin/app"%string [] = (loaded, Ok tt) /\
  load parse read_file exists_file "lib"%string 1 "app"%string "/bin/app"%string loaded = (loaded, Ok tt).
Proof.
  assert (H1 : load_data parse read_file exists_file "lib"%string 3 "app"%string (image Byte.x06) []
               = (loaded, Ok tt)) by (vm_compute; reflexivity).
  assert (H2 : load parse read_file exists_file "lib"%string 3 "app"%string "/bin/app"%string [] = (loaded, Ok tt))
    by (vm_compute; reflexivity).
  destruct (load_data_replaces_load_idempotent parse read_file exists_file "lib"%string) as [P1 P2].
  split; [exact H1|]. split; [exact (P1 _ _ _ _ _ H1)|].
  split; [exact H2 | exact (P2 3%nat 0%nat _ _ _ _ H2)].
Defined.

(** C5 fails: a second [load_data] under a present name replaces its bytes. *)
Lemma load_data_overwrites :
  let st1 := fst (load_data parse read_file exists_file "lib"%string 1 "app"%string (image Byte.x01) []) in
  BTreeMap.get "app"%string st1 = Some (image Byte.x01) /\
  snd (load_data parse read_file exists_file "lib"%string 1 "app"%string (image Byte.x02) st1) = Ok tt /\
  BTreeMap.get "app"%string (fst (load_data parse read_file exists_file "lib"%string 1 "app"%string (image Byte.x02) st1))
    = Some (image Byte.x02) /\
  image Byte.x02 <> image Byte.x01.
Proof. vm_compute. repeat split; auto; discriminate. Qed.

Lemma plan_mapping_size_witness :
  plan mmap_obj objs "app"%string elfs = (plan_trace, Ok plan_result) /\
  In (EMap "app"%string 4194304 4096 3) plan_trace /\
  exists elf, In ("app"%string, elf) elfs /\ hi_of elf = Some 4096.
Proof.
  assert (H : plan mmap_obj objs "app"%string elfs = (plan_trace, Ok plan_result))
    by (vm_compute; reflexivity).
  assert (Hin : In (EMap "app"%string 4194304 4096 3) plan_trace) by (left; reflexivity).
  split; [exact H|]. split; [exact Hin|].
  destruct (plan_mapping_size _ _ _ _ _ _ H "app"%string 4194304 4096 3 Hin) as [elf [A [B _]]].
  exists elf. split; assumption.
Defined.

(** C6 (code bug). A PT_LOAD header with [p_vaddr] 0x1000 and [p_memsz]
    2^64 - 1: the unchecked usize addition [p_memsz + voff + PAGE - 1]
    computing [vsize] in [link] overflows (a debug build panics there; a
    release build wraps, giving [vsize] = 0). The mapping gets size 0x1000,
    while the header's
    page-rounded span ends at [vaddr + vsize] = 0x1000 + 2^64, so the span
    does not lie within the mapping. *)
Lemma plan_mapping_wraps :
  plan mmap_obj objs_big "big"%string elfs_big =
    ([EMap "big"%string 140737488355328 4096 3],
     Ok {| tls_primary := 0; tls_size := 0;
           mmaps := [("big"%string, (140737488355328, 4096))]; globals := [] |}) /\
  In big_ph (program_headers big_elf) /\ p_type big_ph = PT_LOAD /\
  spec_end big_ph = 4096 + W64 /\ 4096 < spec_end big_ph.
Proof. vm_compute. repeat split; auto. Qed.

Lemma link_irelative_after_first_pass_witness :
  nth_error (fst (link parse mmap_obj mmap_tls mprotect resolver objs_irel "app"%string)) 5
    = Some (ECall 4194432) /\
  exists elfs p tls_len s t0 t1 t2 t3 t4 post,
    parse_all parse objs_irel = (t0, Ok elfs) /\
    plan mmap_obj objs_irel "app"%string elfs = (t1, Ok p) /\
    allocate_tls mmap_tls (tls_size p) = (t2, Ok tls_len) /\
    copy objs_irel "app"%string elfs (mmaps p) (tls_primary p) tls_len = (t3, Ok s) /\
    pass1 mprotect elfs p (tls_ranges s) = (t4, Ok tt) /\
    fst (link parse mmap_obj mmap_tls mprotect resolver objs_irel "app"%string)
      = t0 ++ t1 ++ t2 ++ t3 ++ t4 ++ post /\
    (List.length (t0 ++ t1 ++ t2 ++ t3 ++ t4) <= 5)%nat.
Proof.
  assert (H : nth_error (fst (link parse mmap_obj mmap_tls mprotect resolver objs_irel "app"%string)) 5
              = Some (ECall 4194432)) by (vm_compute; reflexivity).
  split; [exact H | exact (link_irelative_after_first_pass _ _ _ _ _ _ _ _ _ H)].
Defined.

Lemma load_library_resolution_witness :
  str_has "/"%char "/bin/app"%string = true /\
  load_library parse read_file exists_file "lib"%string 3 "/bin/app"%string []
    = load parse read_file exists_file "lib"%string 3 "/bin/app"%string "/bin/app"%string [] /\
  str_has "/"%char "libc.so"%string = false /\
  Forall (fun part => has_nul (search_path part "libc.so"%string) = false) (split PATH_SEP "lib3:lib"%string) /\
  load_library parse read_file exists_file "lib3:lib"%string 3 "libc.so"%string []
    = load parse read_file exists_file "lib3:lib"%string 3 "libc.so"%string "lib/libc.so"%string [] /\
  split PATH_SEP "lib"%string = [] ++ "lib"%string :: [] /\
  str_has "/"%char nul_name = false /\
  has_nul (search_path "lib"%string nul_name) = true /\
  load_library parse read_file exists_file "lib"%string 3 nul_name []
    = ([], Err (Malformed ("invalid path '" ++ search_path "lib"%string nul_name ++ "'")%string)).
Proof.
  assert (H1 : str_has "/"%char "/bin/app"%string = true) by reflexivity.
  assert (H2 : str_has "/"%char "libc.so"%string = false) by reflexivity.
  assert (H3 : Forall (fun part => has_nul (search_path part "libc.so"%string) = false)
                 (split PATH_SEP "lib3:lib"%string)) by (vm_compute; repeat constructor).
  split; [exact H1|].
  split; [exact (proj1 (load_library_resolution parse read_file exists_file "lib"%string 3
                          "/bin/app"%string []) H1)|].
  split; [exact H2|]. split; [exact H3|].
  split; [exact (proj1 (proj2 (load_library_resolution parse read_file exists_file "lib3:lib"%string 3
                  "libc.so"%string [])) H2 H3)|].
  assert (H4 : split PATH_SEP "lib"%string = [] ++ "lib"%string :: []) by reflexivity.
  assert (H5 : str_has "/"%char nul_name = false) by reflexivity.
  assert (H6 : has_nul (search_path "lib"%string nul_name) = true) by reflexivity.
  split; [exact H4|]. split; [exact H5|]. split; [exact H6|].
  exact (proj2 (proj2 (load_library_resolution parse read_file exists_file "lib"%string 3
                  nul_name [])) [] "lib"%string [] H4 H5 (Forall_nil _) H6).
Defined.

(** C8 fails: no part passes the existence test, yet the result is an
    [invalid path] error, not the not-found error. *)
Lemma load_library_nul_not_not_found :
  find (fun part => exists_file (search_path part nul_name)) (split PATH_SEP "lib"%string) = None /\
  load_library parse read_file exists_file "lib"%string 3 nul_name []
    = ([], Err (Malformed ("invalid path 'lib/" ++ nul_name ++ "'")%string)) /\
  snd (load_library parse read_file exists_file "lib"%string 3 nul_name [])
    <> Err (Malformed ("failed to locate '" ++ nul_name ++ "'")%string).
Proof. vm_compute. repeat split; auto; discriminate. Qed.

Lemma orphan_tls_object_witness :
  plan_step mmap_obj objs_orphan "app"%string plan0 ("tls.so"%string, orphan_elf) =
    ([], Ok {| tls_primary := 0; tls_size := 4096; mmaps := []; globals := [] |}) /\
  plan mmap_obj objs_orphan "app"%string elfs_orphan = (orphan_trace, Ok orphan_plan) /\
  BTreeMap.get "tls.so"%string (mmaps orphan_plan) = None.
Proof.
  assert (H1 : BTreeMap.get "tls.so"%string objs_orphan <> None) by (vm_compute; discriminate).
  assert (H2 : forall e, In ("tls.so"%string, e) elfs_orphan ->
                 forall ph, In ph (program_headers e) -> p_type ph <> PT_LOAD).
  { intros e [E|[E|[]]]; injection E; [discriminate|].
    intros <- ph [<-|[]]. vm_compute. discriminate. }
  assert (Hin : In ("tls.so"%string, orphan_elf) elfs_orphan) by (right; left; reflexivity).
  assert (Hb : 0 <= tls_primary plan0 < W64) by (vm_compute; split; congruence).
  assert (H : plan mmap_obj objs_orphan "app"%string elfs_orphan = (orphan_trace, Ok orphan_plan))
    by (vm_compute; reflexivity).
  destruct (orphan_tls_object mmap_obj objs_orphan "app"%string "tls.so"%string elfs_orphan H1 H2) as [P1 P2].
  split; [rewrite (P1 orphan_elf plan0 Hin Hb Hb); vm_compute; reflexivity|].
  split; [exact H | exact (proj1 (P2 _ _ H))].
Defined.

Lemma load_library_first_hit_final_witness :
  split PATH_SEP "lib3:lib2:lib"%string = ["lib3"%string] ++ "lib2"%string :: ["lib"%string] /\
  load_library parse read_file exists_file "lib3:lib2:lib"%string 3 "libc.so"%string []
    = load parse read_file exists_file "lib3:lib2:lib"%string 3 "libc.so"%string "lib2/libc.so"%string [] /\
  load parse read_file exists_file "lib3:lib2:lib"%string 3 "libc.so"%string "lib2/libc.so"%string []
    = ([], Err (Malformed "failed to read 'lib2/libc.so': I/O error"%string)).
Proof.
  assert (H1 : split PATH_SEP "lib3:lib2:lib"%string = ["lib3"%string] ++ "lib2"%string :: ["lib"%string])
    by reflexivity.
  assert (H2 : str_has "/"%char "libc.so"%string = false) by reflexivity.
  assert (H3 : Forall (fun q => has_nul (search_path q "libc.so"%string) = false /\
                                exists_file (search_path q "libc.so"%string) = false) ["lib3"%string])
    by (repeat constructor).
  assert (H4 : has_nul (search_path "lib2"%string "libc.so"%string) = false) by reflexivity.
  assert (H5 : exists_file (search_path "lib2"%string "libc.so"%string) = true) by reflexivity.
  split; [exact H1|].
  split; [exact (load_library_first_hit_final parse read_file exists_file "lib3:lib2:lib"%string 3
                   "libc.so"%string [] _ _ _ H1 H2 H3 H4 H5)|].
  vm_compute. reflexivity.
Defined.

Lemma plan_mmaps_provenance_witness :
  plan mmap_obj objs "app"%string elfs = (plan_trace, Ok plan_result) /\
  BTreeMap.get "app"%string (mmaps plan_result) = Some (4194304, 4096) /\
  exists elf d, In ("app"%string, elf) elfs /\ BTreeMap.get "app"%string objs = Some d /\
    hi_of elf = Some 4096 /\ 4194304 = mmap_obj "app"%string 4096 /\ 4194304 <> MAP_FAILED.
Proof.
  assert (H : plan mmap_obj objs "app"%string elfs = (plan_trace, Ok plan_result))
    by (vm_compute; reflexivity).
  assert (Hg : BTreeMap.get "app"%string (mmaps plan_result) = Some (4194304, 4096))
    by reflexivity.
  split; [exact H|]. split; [exact Hg|].
  exact (plan_mmaps_provenance _ _ _ _ _ _ H _ _ _ Hg).
Defined.

Lemma relocate_missing_symbol_fails_witness :
  (0 < 1)%nat /\ nth_error (dynsyms dangling_elf) 1 = None /\
  snd (relocate "app"%string dangling_elf 4194304 [] []) <> Ok tt.
Proof.
  assert (H0 : (0 < 1)%nat) by lia.
  assert (H1 : nth_error (dynsyms dangling_elf) 1 = None) by reflexivity.
  split; [exact H0|]. split; [exact H1|].
  exact (relocate_missing_symbol_fails "app"%string dangling_elf 4194304 [] []
           {| r_offset := 0; r_addend := Some 0; r_sym := 1; r_type := R_X86_64_64 |}
           (or_introl eq_refl) H0 (or_introl H1)).
Defined.

Lemma protect_calls_witness :
  filter (fun ph => p_type ph =? PT_LOAD) (program_headers app_elf)
    = [ph_load 0 4096 (Z.lor PF_R PF_X)] /\
  protect mprotect "app"%string app_elf 4194304
    = (map (prot_call 4194304) (filter (fun ph => p_type ph =? PT_LOAD) (program_headers app_elf)),
       Ok tt) /\
  protect (fun _ _ _ => -1) "app"%string app_elf 4194304
    = (map (prot_call 4194304) ([] ++ [ph_load 0 4096 (Z.lor PF_R PF_X)]),
       Err (Malformed ("failed to mprotect " ++ "app"))).
Proof.
  pose proof (protect_calls mprotect "app"%string app_elf 4194304) as P.
  pose proof (protect_calls (fun _ _ _ => -1) "app"%string app_elf 4194304) as Q.
  cbv zeta in P, Q. destruct P as [P _]. destruct Q as [_ Q].
  split; [reflexivity|]. split.
  - apply P. intros ph Hin. unfold prot_res, mprotect. lia.
  - apply (Q [] (ph_load 0 4096 (Z.lor PF_R PF_X)) []).
    + reflexivity.
    + intros q [].
    + unfold prot_res. cbv beta. lia.
Defined.

Lemma link_entry_point_witness :
  link parse mmap_obj mmap_tls mprotect resolver objs "app"%string
    = (fst (link parse mmap_obj mmap_tls mprotect resolver objs "app"%string), Ok 4194368) /\
  exists w0 elfs w1 p elf b size,
    parse_all parse objs = (w0, Ok elfs) /\
    plan mmap_obj objs "app"%string elfs = (w1, Ok p) /\
    In ("app"%string, elf) elfs /\ BTreeMap.get "app"%string (mmaps p) = Some (b, size) /\
    4194368 = wrap (b + e_entry elf).
Proof.
  assert (H : link parse mmap_obj mmap_tls mprotect resolver objs "app"%string
    = (fst (link parse mmap_obj mmap_tls mprotect resolver objs "app"%string), Ok 4194368))
    by (vm_compute; reflexivity).
  split; [exact H | exact (link_entry_point _ _ _ _ _ _ _ _ _ H)].
Defined.

Lemma loader_keeps_objects_witness :
  BTreeMap.contains_key "app"%string loaded = true /\
  (forall name path, BTreeMap.contains_key "app"%string
     (fst (load parse read_file exists_file "lib"%string 1 name path loaded)) = true) /\
  (forall name, BTreeMap.contains_key "app"%string
     (fst (load_library parse read_file exists_file "lib"%string 1 name loaded)) = true) /\
  (forall name data, BTreeMap.contains_key "app"%string
     (fst (load_data parse read_file exists_file "lib"%string 1 name data loaded)) = true).
Proof.
  assert (H : BTreeMap.contains_key "app"%string loaded = true) by reflexivity.
  split; [exact H | exact (loader_keeps_objects parse read_file exists_file "lib"%string 1 _ _ H)].
Defined.

Lemma load_data_dependencies_present_witness :
  load_data parse read_file exists_file "lib"%string 3 "app"%string (image Byte.x06) []
    = (loaded, Ok tt) /\
  parse (image Byte.x06) = Ok dep_elf /\
  BTreeMap.contains_key "libc.so"%string loaded = true.
Proof.
  assert (H1 : load_data parse read_file exists_file "lib"%string 3 "app"%string (image Byte.x06) []
               = (loaded, Ok tt)) by (vm_compute; reflexivity).
  assert (H2 : parse (image Byte.x06) = Ok dep_elf) by reflexivity.
  split; [exact H1|]. split; [exact H2|].
  exact (load_data_dependencies_present _ _ _ _ _ _ _ _ _ _ H1 H2 "libc.so"%string
           (or_introl eq_refl)).
Defined.

Lemma load_data_present_deps_witness :
  parse (image Byte.x06) = Ok dep_elf /\
  (forall lib, In lib (libraries dep_elf) ->
     BTreeMap.contains_key lib [("libc.so"%string, image Byte.x02)] = true) /\
  load_data parse read_file exists_file "lib"%string 1 "app"%string (image Byte.x06)
    [("libc.so"%string, image Byte.x02)]
    = (BTreeMap.insert "app"%string (image Byte.x06) [("libc.so"%string, image Byte.x02)], Ok tt).
Proof.
  assert (H1 : parse (image Byte.x06) = Ok dep_elf) by reflexivity.
  assert (H2 : forall lib, In lib (libraries dep_elf) ->
     BTreeMap.contains_key lib [("libc.so"%string, image Byte.x02)] = true)
    by (intros lib [<-|[]]; reflexivity).
  split; [exact H1|]. split; [exact H2|].
  exact (load_data_present_deps parse read_file exists_file "lib"%string 0 "app"%string
           (image Byte.x06) _ _ H1 H2).
Defined.

Lemma allocate_tls_tcb_witness :
  0 <= 8192 /\ 8192 + PAGE_SIZE < W64 /\
  allocate_tls mmap_tls 8192 = (fst (allocate_tls mmap_tls 8192), Ok 8192) /\
  (8192 = 8192 /\ exists ptr,
    ptr = mmap_tls (8192 + PAGE_SIZE) /\ ptr <> MAP_FAILED /\
    fst (allocate_tls mmap_tls 8192)
      = [EMapTls ptr (8192 + PAGE_SIZE) (Z.lor PROT_READ PROT_WRITE);
         EStore (ptr + 8192) (wrap (ptr + 8192))] /\
    ptr <= ptr + 8192 /\ (ptr + 8192) + 8 <= ptr + (8192 + PAGE_SIZE)).
Proof.
  assert (H0 : 0 <= 8192) by lia.
  assert (H1 : 8192 + PAGE_SIZE < W64) by (vm_compute; reflexivity).
  assert (H2 : allocate_tls mmap_tls 8192 = (fst (allocate_tls mmap_tls 8192), Ok 8192))
    by (vm_compute; reflexivity).
  split; [exact H0|]. split; [exact H1|]. split; [exact H2|].
  exact (allocate_tls_tcb mmap_tls 8192 _ _ H0 H1 H2).
Defined.

Lemma copy_segments_copied_witness :
  copy objs "app"%string elfs (mmaps plan_result) 4096 8192 =
    (fst (copy objs "app"%string elfs (mmaps plan_result) 4096 8192),
     Ok {| tls_offset := 8192; tls_index := 1;
           tls_ranges := [("app"%string, (0, (0, 16))); ("libc.so"%string, (1, (4032, 4096)))] |}) /\
  exists data start,
    slice_get (image Byte.x02) (file_range (ph_tls 64 64 64)) = Some data /\
    In (ECopyTls "libc.so"%string start data)
       (fst (copy objs "app"%string elfs (mmaps plan_result) 4096 8192)) /\
    (Z.of_nat (List.length data) < W64 ->
     0 <= start /\ start + Z.of_nat (List.length data) <= 8192).
Proof.
  assert (H : copy objs "app"%string elfs (mmaps plan_result) 4096 8192 =
    (fst (copy objs "app"%string elfs (mmaps plan_result) 4096 8192),
     Ok {| tls_offset := 8192; tls_index := 1;
           tls_ranges := [("app"%string, (0, (0, 16))); ("libc.so"%string, (1, (4032, 4096)))] |}))
    by (vm_compute; reflexivity).
  assert (He : In ("libc.so"%string, lib_elf) elfs) by (right; left; reflexivity).
  assert (Ho : BTreeMap.get "libc.so"%string objs = Some (image Byte.x02)) by reflexivity.
  assert (Hm : BTreeMap.get "libc.so"%string (mmaps plan_result) = Some (140737488355328, 4096))
    by reflexivity.
  assert (Hp : In (ph_tls 64 64 64) (program_headers lib_elf)) by (right; left; reflexivity).
  assert (Ht : p_type (ph_tls 64 64 64) = PT_TLS) by reflexivity.
  split; [exact H|].
  exact (proj2 (copy_segments_copied _ _ _ _ _ _ _ _ H _ _ _ _ _ _ He Ho Hm Hp) Ht).
Defined.

Lemma loader_keeps_bytes_witness :
  BTreeMap.get "libc.so"%string loaded = Some (image Byte.x02) /\
  "libc.so"%string <> "app"%string /\
  BTreeMap.get "libc.so"%string
    (fst (load_data parse read_file exists_file "lib"%string 3 "app"%string (image Byte.x06) loaded))
    = Some (image Byte.x02).
Proof.
  assert (H : BTreeMap.get "libc.so"%string loaded = Some (image Byte.x02)) by reflexivity.
  assert (Hn : "libc.so"%string <> "app"%string) by discriminate.
  split; [exact H|]. split; [exact Hn|].
  exact (proj2 (proj2 (loader_keeps_bytes parse read_file exists_file "lib"%string 3 _ _ _ H))
           "app"%string (image Byte.x06) Hn).
Defined.
